(** * One-dimensional Voronoi partitioning with Lloyd relaxation

    A shallow embedding of [partition_voronoi], the function shared by the
    three Python files of the repository (the command-line version and the two
    Tk applications), and the properties of it that the specification states;
    then the parts of the two applications around it: how they read the
    numbers, how they write the result, and what their handlers do.

    Numbers.  The specification speaks of real numbers; the code stores them
    as IEEE doubles.  The function is read twice.  In the first reading a
    number is an exact rational in canonical form ([Qc]), so that [==] of
    the code is Leibniz equality and every operation computes; it carries
    the properties that do not depend on the arithmetic: how many clusters
    there are, that they rearrange the input and in which order, which
    branch runs, when an exception is raised.  In the second reading
    ([Doubles]) a number is a binary64 double with the operations of the
    processor, rounding, infinities and NaN included; it carries the
    properties that depend on them: which seed is nearest, where a seed
    moves, what equal values give.

    Errors.  A Python exception is a value [Raise e] of [result]; every
    operation that can raise in Python (indexing out of range, [argmin],
    [min] and [max] of an empty array, the mean of an empty slice) can raise
    in the model.

    Random source.  [random.random()] reads the process-wide generator.  Its
    successive outputs are a sequence [random : nat -> Qc]; the state threaded
    through the code is the number of outputs consumed so far.

    Text.  A Python [str] is the list of its code points.  What Python and
    numpy decide ([float] of a string, [str] of a float) is a parameter. *)

From Stdlib Require Import Ascii String.
From Stdlib Require Import List ZArith QArith Qcanon Qabs Qcabs Qround.
From Stdlib Require Decimal DecimalZ DecimalPos DecimalN.
From Stdlib Require Floats.
From Stdlib Require Import Permutation Sorted Lia Lqa Bool Arith.
Import ListNotations.

Close Scope Qc_scope.
Close Scope Q_scope.
Open Scope nat_scope.

(** ** Exceptions and the error monad *)

Inductive exn : Type :=
| ValueError (msg : string)
| IndexError
| ZeroDivisionError.

Inductive result (A : Type) : Type :=
| Ok (a : A)
| Raise (e : exn).

Arguments Ok {A} a.
Arguments Raise {A} e.

Definition bind {A B : Type} (m : result A) (f : A -> result B) : result B :=
  match m with
  | Ok a => f a
  | Raise e => Raise e
  end.

Notation "x <- m ;; k" := (bind m (fun x => k))
  (at level 61, m at next level, right associativity).
Notation "' pat <- m ;; k" := (bind m (fun x => match x with pat => k end))
  (at level 61, pat pattern, m at next level, right associativity).

(** [for x in xs: acc = f(acc, x)], stopping at the first exception. *)
Fixpoint foldM {A B : Type} (f : A -> B -> result A) (xs : list B) (acc : A)
  : result A :=
  match xs with
  | [] => Ok acc
  | x :: xs' => acc' <- f acc x ;; foldM f xs' acc'
  end.

(** [[f(x) for x in xs]], stopping at the first exception. *)
Fixpoint mapM {A B : Type} (f : A -> result B) (xs : list A) : result (list B) :=
  match xs with
  | [] => Ok []
  | x :: xs' => y <- f x ;; ys <- mapM f xs' ;; Ok (y :: ys)
  end.

(** ** Numbers *)

Definition of_Z (z : Z) : Qc := Q2Qc (inject_Z z).
Definition of_nat (n : nat) : Qc := of_Z (Z.of_nat n).

(** [x < y], [x <= y] and [x == y] on numbers, as booleans. *)
Definition Qcleb (x y : Qc) : bool := Qle_bool x y.
Definition Qcltb (x y : Qc) : bool := negb (Qle_bool y x).
Definition Qceqb (x y : Qc) : bool := Qeq_bool x y.

(** ** Sequences: indexing as Python does it *)

(** [xs[i]] for [0 <= i]. *)
Definition getitem {A : Type} (xs : list A) (i : nat) : result A :=
  match nth_error xs i with
  | Some x => Ok x
  | None => Raise IndexError
  end.

(** [xs[i] = v] for [0 <= i]: the updated sequence. *)
Fixpoint setitem {A : Type} (xs : list A) (i : nat) (v : A) : result (list A) :=
  match xs, i with
  | [], _ => Raise IndexError
  | _ :: xs', O => Ok (v :: xs')
  | x :: xs', S i' => ys <- setitem xs' i' v ;; Ok (x :: ys)
  end.

(** ** The numpy operations the function uses

    In this reading they are exact: a sum does not depend on the order of
    its terms and nothing rounds or overflows.  [Doubles] has them as the
    program computes them. *)

Definition asum (xs : list Qc) : Qc := fold_left Qcplus xs (Q2Qc 0).

(** [a.mean()]: the sum over the size.  On an empty array numpy divides zero
    by zero (a warning and NaN); the model has no such number and raises. *)
Definition mean (xs : list Qc) : result Qc :=
  match xs with
  | [] => Raise ZeroDivisionError
  | _ :: _ => Ok (asum xs / of_nat (List.length xs))%Qc
  end.

(** [a.min()] and [a.max()]; on an empty array numpy raises ValueError. *)
Definition amin (xs : list Qc) : result Qc :=
  match xs with
  | [] => Raise (ValueError "zero-size array to reduction operation minimum")
  | x :: r => Ok (fold_left (fun m y => if Qcltb y m then y else m) r x)
  end.

Definition amax (xs : list Qc) : result Qc :=
  match xs with
  | [] => Raise (ValueError "zero-size array to reduction operation maximum")
  | x :: r => Ok (fold_left (fun m y => if Qcltb m y then y else m) r x)
  end.

(** [np.sort]: ascending order. *)
Fixpoint insert_sorted (x : Qc) (xs : list Qc) : list Qc :=
  match xs with
  | [] => [x]
  | y :: ys => if Qcleb x y then x :: y :: ys else y :: insert_sorted x ys
  end.

Definition sort (xs : list Qc) : list Qc := fold_right insert_sorted [] xs.

(** [np.linspace(0, 1, num)]: [num] evenly spaced points, ends included. *)
Definition linspace01 (num : nat) : list Qc :=
  map (fun i => (of_nat i / of_nat (num - 1))%Qc) (seq 0 num).

(** The slice [xs[1:-1]]. *)
Definition interior {A : Type} (xs : list A) : list A := removelast (tl xs).

(** [np.quantile(a, p)] with the default linear interpolation, for a sorted
    non-empty [a] and [0 <= p <= 1]: the virtual index [p * (n - 1)], the
    order statistics around it (the upper index clipped to the last one) and a
    linear interpolation between them. *)
Definition quantile (a : list Qc) (p : Qc) : Qc :=
  let n := List.length a in
  let virtual := (p * of_nat (n - 1))%Qc in
  let previous := Qfloor virtual in
  let next := Z.min (previous + 1) (Z.of_nat (n - 1)) in
  let gamma := (virtual - of_Z previous)%Qc in
  let lo := nth (Z.to_nat previous) a (Q2Qc 0) in
  let hi := nth (Z.to_nat next) a (Q2Qc 0) in
  (lo + (hi - lo) * gamma)%Qc.

(** The scan of [argmin] over one row: [mp] is the least entry so far and
    [min_ind] its index; a later entry replaces it only when strictly
    smaller, so the first minimum wins. *)
Fixpoint argmin_scan (mp : Qc) (min_ind i : nat) (row : list Qc) : nat :=
  match row with
  | [] => min_ind
  | x :: r =>
      if Qcltb x mp then argmin_scan x i (S i) r
      else argmin_scan mp min_ind (S i) r
  end.

Definition argmin (row : list Qc) : result nat :=
  match row with
  | [] => Raise (ValueError "attempt to get argmin of an empty sequence")
  | x :: r => Ok (argmin_scan x 0 1 r)
  end.

(** ** The pieces of [partition_voronoi] *)

(** One row of [np.abs(arr[:, None] - seeds[None, :])]. *)
Definition distances (v : Qc) (seeds : list Qc) : list Qc :=
  map (fun s => Qcabs (v - s)) seeds.

(** [idx = np.abs(arr[:, None] - seeds[None, :]).argmin(axis=1)] *)
Definition nearest (arr seeds : list Qc) : result (list nat) :=
  mapM (fun v => argmin (distances v seeds)) arr.

(** [members = arr[idx == s]] *)
Definition members (arr : list Qc) (idx : list nat) (s : nat) : list Qc :=
  map fst (filter (fun p => Nat.eqb (snd p) s) (combine arr idx)).

(** The body of [for s in range(n_seeds)], on the pair [(new_seeds, moved)]. *)
Definition relocate (arr : list Qc) (idx : list nat) (seeds : list Qc)
    (st : list Qc * bool) (s : nat) : result (list Qc * bool) :=
  let '(new_seeds, moved) := st in
  let m := members arr idx s in
  if Nat.ltb 0 (List.length m) then
    new_pos <- mean m ;;
    old <- getitem seeds s ;;
    let moved := if negb (Qceqb new_pos old) then true else moved in
    new_seeds <- setitem new_seeds s new_pos ;;
    Ok (new_seeds, moved)
  else Ok (new_seeds, moved).

(** One pass of the relaxation loop: the new seeds and the flag [moved]. *)
Definition lloyd_pass (arr seeds : list Qc) (n_seeds : nat)
  : result (list Qc * bool) :=
  idx <- nearest arr seeds ;;
  foldM (relocate arr idx seeds) (seq 0 n_seeds) (seeds, false).

(** [for _ in range(k)]: a pass, [seeds = new_seeds], [break] if not moved. *)
Fixpoint lloyd_iterations (k : nat) (arr seeds : list Qc) (n_seeds : nat)
  : result (list Qc) :=
  match k with
  | O => Ok seeds
  | S k' =>
      '(new_seeds, moved) <- lloyd_pass arr seeds n_seeds ;;
      if negb moved then Ok new_seeds
      else lloyd_iterations k' arr new_seeds n_seeds
  end.

(** [clusters[k].append(val)] *)
Definition append_at (clusters : list (list Qc)) (p : Qc * nat)
  : result (list (list Qc)) :=
  let '(val, k) := p in
  c <- getitem clusters k ;;
  setitem clusters k (c ++ [val]).

(** The final partition: the clusters built over [zip(values, idx)]. *)
Definition build_clusters (values : list Qc) (idx : list nat) (n_seeds : nat)
  : result (list (list Qc)) :=
  foldM append_at (combine values idx) (repeat [] n_seeds).

(** Everything after the initialisation of the seeds. *)
Definition relax_and_split (values arr seeds : list Qc) (n_seeds : nat)
    (lloyd_iters : Z) : result (list (list Qc) * list Qc) :=
  seeds <- lloyd_iterations (Z.to_nat lloyd_iters) arr seeds n_seeds ;;
  idx <- nearest arr seeds ;;
  clusters <- build_clusters values idx n_seeds ;;
  Ok (clusters, seeds).

(** The quantile initialisation. *)
Definition quantile_seeds (arr : list Qc) (n_seeds : nat) : list Qc :=
  let sorted_vals := sort arr in
  let probs := interior (linspace01 (n_seeds + 2)) in
  map (fun p => quantile sorted_vals p) probs.

Section Partitioner.

(** The successive outputs of [random.random()]. *)
Variable random : nat -> Qc.

(** [random.uniform(a, b)] is [a + (b - a) * random()] in CPython. *)
Definition uniform (a b : Qc) (g : nat) : Qc * nat :=
  ((a + (b - a) * random g)%Qc, S g).

(** [[random.uniform(lo, hi) for _ in range(n)]] *)
Fixpoint uniform_seeds (lo hi : Qc) (n : nat) (g : nat) : list Qc * nat :=
  match n with
  | O => ([], g)
  | S n' =>
      let '(x, g1) := uniform lo hi g in
      let '(xs, g2) := uniform_seeds lo hi n' g1 in
      (x :: xs, g2)
  end.

(** The random initialisation of the command-line version and of the first
    application. *)
Definition random_seeds (arr : list Qc) (n_seeds : nat) (g : nat)
  : result (list Qc) * nat :=
  match amin arr, amax arr with
  | Ok lo, Ok hi =>
      let '(seeds, g') := uniform_seeds lo hi n_seeds g in (Ok seeds, g')
  | Raise e, _ => (Raise e, g)
  | _, Raise e => (Raise e, g)
  end.

(** The random initialisation of the second application, with its guard
    [if lo == hi]. *)
Definition random_seeds_2 (arr : list Qc) (n_seeds : nat) (g : nat)
  : result (list Qc) * nat :=
  match amin arr, amax arr with
  | Ok lo, Ok hi =>
      if Qceqb lo hi then (Ok (repeat lo n_seeds), g)
      else let '(seeds, g') := uniform_seeds lo hi n_seeds g in (Ok seeds, g')
  | Raise e, _ => (Raise e, g)
  | _, Raise e => (Raise e, g)
  end.

(** [partition_voronoi] of the command-line version; the first application
    has the same body.  The last argument and the second component of the
    result are the state of the random source.  [arr] is
    [np.array(values, dtype=float)]: in this reading the same numbers;
    [Doubles.partition_voronoi] keeps the input objects and their doubles
    apart. *)
Definition partition_voronoi (values : list Qc) (n_seeds : Z)
    (lloyd_iters : Z) (init_method : string) (g : nat)
  : result (list (list Qc) * list Qc) * nat :=
  if (n_seeds <=? 0)%Z then (Raise (ValueError "n_seeds must be >= 1"), g)
  else if Nat.eqb (List.length values) 0 then
    (Ok (repeat [] (Z.to_nat n_seeds), []), g)
  else
    let arr := values in
    let '(seeds, g') :=
      if String.eqb init_method "quantile" then
        (Ok (quantile_seeds arr (Z.to_nat n_seeds)), g)
      else random_seeds arr (Z.to_nat n_seeds) g in
    (seeds <- seeds ;;
     relax_and_split values arr seeds (Z.to_nat n_seeds) lloyd_iters, g').

(** [partition_voronoi] of the second application. *)
Definition partition_voronoi_2 (values : list Qc) (n_seeds : Z)
    (lloyd_iters : Z) (init_method : string) (g : nat)
  : result (list (list Qc) * list Qc) * nat :=
  if (n_seeds <=? 0)%Z then (Raise (ValueError "n_seeds must be >= 1"), g)
  else if Nat.eqb (List.length values) 0 then
    (Ok (repeat [] (Z.to_nat n_seeds), []), g)
  else
    let arr := values in
    let '(seeds, g') :=
      if String.eqb init_method "quantile" then
        (Ok (quantile_seeds arr (Z.to_nat n_seeds)), g)
      else random_seeds_2 arr (Z.to_nat n_seeds) g in
    (seeds <- seeds ;;
     relax_and_split values arr seeds (Z.to_nat n_seeds) lloyd_iters, g').

End Partitioner.

(** ** The same function over IEEE doubles

    The numbers of the program are binary64 floating-point numbers.  Where a
    property depends on how they round, overflow or compare, the function is
    read over the primitive binary64 floats ([PrimFloat.float]): [-], [+],
    [*], [/], [abs], [<=] and [==] below are the IEEE operations that the
    processor applies for numpy and for Python.  What numpy computes inside
    its own library is a parameter, the record [numpy].  The input values
    are objects of any type [V] with their conversion to a double, as in
    [np.array(values, dtype=float)]: the clusters keep the objects, the
    arithmetic sees the doubles. *)

Module Doubles.
Import PrimFloat.

(** What is taken from numpy as it is: [a.sum()], [a.min()] and [a.max()]
    of a float64 array, [np.sort(a)], [np.linspace(0, 1, num)] and
    [np.quantile(a, p)]. *)
Record numpy : Type := {
  sum : list float -> float;
  min : list float -> float;
  max : list float -> float;
  sort : list float -> list float;
  linspace : nat -> list float;
  quantile : list float -> float -> float
}.

(** The size of an array as a double. *)
Definition of_nat (n : nat) : float := of_uint63 (Uint63.of_Z (Z.of_nat n)).

(** The scan of [argmin] over one row of doubles.  numpy replaces the least
    entry [mp] by a later entry [x] when [x >= mp] does not hold, and stops
    at a NaN: the first NaN of a row is its argmin, and in a row without
    NaN the first least entry. *)
Fixpoint argmin_scan (mp : float) (min_ind i : nat) (row : list float) : nat :=
  match row with
  | [] => min_ind
  | x :: r =>
      if negb (mp <=? x)%float then
        if is_nan x then i else argmin_scan x i (S i) r
      else argmin_scan mp min_ind (S i) r
  end.

Definition argmin (row : list float) : result nat :=
  match row with
  | [] => Raise (ValueError "attempt to get argmin of an empty sequence")
  | x :: r => Ok (if is_nan x then 0 else argmin_scan x 0 1 r)
  end.

(** One row of [np.abs(arr[:, None] - seeds[None, :])]. *)
Definition distances (v : float) (seeds : list float) : list float :=
  map (fun s => abs (v - s)%float) seeds.

(** [idx = np.abs(arr[:, None] - seeds[None, :]).argmin(axis=1)] *)
Definition nearest (arr seeds : list float) : result (list nat) :=
  mapM (fun v => argmin (distances v seeds)) arr.

(** [members = arr[idx == s]]: the entries whose index is [s], in order. *)
Definition members {A : Type} (arr : list A) (idx : list nat) (s : nat) : list A :=
  map fst (filter (fun p => Nat.eqb (snd p) s) (combine arr idx)).

Section Library.

Variable np : numpy.

(** [a.mean()]: the sum of the array divided by its size. *)
Definition mean (a : list float) : float :=
  (sum np a / of_nat (List.length a))%float.

(** The body of [for s in range(n_seeds)], on the pair [(new_seeds, moved)]. *)
Definition relocate (arr : list float) (idx : list nat) (seeds : list float)
    (st : list float * bool) (s : nat) : result (list float * bool) :=
  let '(new_seeds, moved) := st in
  let m := members arr idx s in
  if Nat.ltb 0 (List.length m) then
    let new_pos := mean m in
    old <- getitem seeds s ;;
    let moved := if negb (new_pos =? old)%float then true else moved in
    new_seeds <- setitem new_seeds s new_pos ;;
    Ok (new_seeds, moved)
  else Ok (new_seeds, moved).

(** One pass of the relaxation loop: the new seeds and the flag [moved]. *)
Definition lloyd_pass (arr seeds : list float) (n_seeds : nat)
  : result (list float * bool) :=
  idx <- nearest arr seeds ;;
  foldM (relocate arr idx seeds) (seq 0 n_seeds) (seeds, false).

(** [for _ in range(k)]: a pass, [seeds = new_seeds], [break] if not moved. *)
Fixpoint lloyd_iterations (k : nat) (arr seeds : list float) (n_seeds : nat)
  : result (list float) :=
  match k with
  | O => Ok seeds
  | S k' =>
      '(new_seeds, moved) <- lloyd_pass arr seeds n_seeds ;;
      if negb moved then Ok new_seeds
      else lloyd_iterations k' arr new_seeds n_seeds
  end.

(** The quantile initialisation. *)
Definition quantile_seeds (arr : list float) (n_seeds : nat) : list float :=
  let sorted_vals := sort np arr in
  let probs := interior (linspace np (n_seeds + 2)) in
  map (fun p => quantile np sorted_vals p) probs.

Section Values.

(** The objects of the input and [float(x)] for each of them. *)
Variable V : Type.
Variable to_float : V -> float.

(** [clusters[k].append(val)] *)
Definition append_at (clusters : list (list V)) (p : V * nat)
  : result (list (list V)) :=
  let '(val, k) := p in
  c <- getitem clusters k ;;
  setitem clusters k (c ++ [val]).

(** The final partition: the clusters built over [zip(values, idx)]. *)
Definition build_clusters (values : list V) (idx : list nat) (n_seeds : nat)
  : result (list (list V)) :=
  foldM append_at (combine values idx) (repeat [] n_seeds).

(** Everything after the initialisation of the seeds. *)
Definition relax_and_split (values : list V) (arr seeds : list float)
    (n_seeds : nat) (lloyd_iters : Z) : result (list (list V) * list float) :=
  seeds <- lloyd_iterations (Z.to_nat lloyd_iters) arr seeds n_seeds ;;
  idx <- nearest arr seeds ;;
  clusters <- build_clusters values idx n_seeds ;;
  Ok (clusters, seeds).

(** The successive outputs of [random.random()]. *)
Variable random : nat -> float.

(** [random.uniform(a, b)] is [a + (b - a) * random()] in CPython. *)
Definition uniform (a b : float) (g : nat) : float * nat :=
  ((a + (b - a) * random g)%float, S g).

(** [[random.uniform(lo, hi) for _ in range(n)]] *)
Fixpoint uniform_seeds (lo hi : float) (n : nat) (g : nat) : list float * nat :=
  match n with
  | O => ([], g)
  | S n' =>
      let '(x, g1) := uniform lo hi g in
      let '(xs, g2) := uniform_seeds lo hi n' g1 in
      (x :: xs, g2)
  end.

(** The random initialisation of the command-line version and of the first
    application; [arr] is not empty here. *)
Definition random_seeds (arr : list float) (n_seeds : nat) (g : nat)
  : list float * nat :=
  let lo := min np arr in
  let hi := max np arr in
  uniform_seeds lo hi n_seeds g.

(** The random initialisation of the second application, with its guard
    [if lo == hi]. *)
Definition random_seeds_2 (arr : list float) (n_seeds : nat) (g : nat)
  : list float * nat :=
  let lo := min np arr in
  let hi := max np arr in
  if (lo =? hi)%float then (repeat lo n_seeds, g)
  else uniform_seeds lo hi n_seeds g.

(** [partition_voronoi] of the command-line version and of the first
    application. *)
Definition partition_voronoi (values : list V) (n_seeds : Z)
    (lloyd_iters : Z) (init_method : string) (g : nat)
  : result (list (list V) * list float) * nat :=
  if (n_seeds <=? 0)%Z then (Raise (ValueError "n_seeds must be >= 1"), g)
  else if Nat.eqb (List.length values) 0 then
    (Ok (repeat [] (Z.to_nat n_seeds), []), g)
  else
    let arr := map to_float values in
    let '(seeds, g') :=
      if String.eqb init_method "quantile" then
        (quantile_seeds arr (Z.to_nat n_seeds), g)
      else random_seeds arr (Z.to_nat n_seeds) g in
    (relax_and_split values arr seeds (Z.to_nat n_seeds) lloyd_iters, g').

(** [partition_voronoi] of the second application. *)
Definition partition_voronoi_2 (values : list V) (n_seeds : Z)
    (lloyd_iters : Z) (init_method : string) (g : nat)
  : result (list (list V) * list float) * nat :=
  if (n_seeds <=? 0)%Z then (Raise (ValueError "n_seeds must be >= 1"), g)
  else if Nat.eqb (List.length values) 0 then
    (Ok (repeat [] (Z.to_nat n_seeds), []), g)
  else
    let arr := map to_float values in
    let '(seeds, g') :=
      if String.eqb init_method "quantile" then
        (quantile_seeds arr (Z.to_nat n_seeds), g)
      else random_seeds_2 arr (Z.to_nat n_seeds) g in
    (relax_and_split values arr seeds (Z.to_nat n_seeds) lloyd_iters, g').

End Values.
End Library.

(** The number that a double stands for, where it stands for one. *)
Definition exact (x : float) : option Q :=
  match FloatOps.Prim2SF x with
  | SpecFloat.S754_zero _ => Some 0%Q
  | SpecFloat.S754_finite s m e =>
      Some ((if s then - inject_Z (Zpos m) else inject_Z (Zpos m)) * (2 ^ e))%Q
  | _ => None
  end.

End Doubles.

(** ** Text, as the applications read it

    A Python [str] is the list of its code points.  [float] is the
    constructor of Python floats applied to a [str]: the number, or nothing
    where Python raises ValueError.  It is a parameter of the two
    applications: its grammar is Python's, not the repository's. *)

Definition text : Type := list N.

(** A [str] whose characters are all ASCII, from a literal. *)
Definition str (s : string) : text := map N_of_ascii (list_ascii_of_string s).

(** [c.isspace()]: the whitespace code points of CPython. *)
Definition isspace (c : N) : bool :=
  ((9 <=? c) && (c <=? 13) || (28 <=? c) && (c <=? 32)
   || (c =? 133) || (c =? 160) || (c =? 5760)
   || (8192 <=? c) && (c <=? 8202)
   || (c =? 8232) || (c =? 8233) || (c =? 8239) || (c =? 8287)
   || (c =? 12288))%N%bool.

Fixpoint lstrip (s : text) : text :=
  match s with
  | [] => []
  | c :: r => if isspace c then lstrip r else s
  end.

Definition rstrip (s : text) : text := rev (lstrip (rev s)).

(** [s.strip()] *)
Definition strip (s : text) : text := rstrip (lstrip s).

(** [s.replace(old, new)] for one-character [old] and [new]. *)
Definition replace_char (old new : N) (s : text) : text :=
  map (fun c => if (c =? old)%N then new else c) s.

(** The pieces of [s] between the characters that [is_sep] marks, empty
    pieces included: [s.split(sep)] when [is_sep] is equality with [sep]. *)
Fixpoint pieces (is_sep : N -> bool) (s : text) : list text :=
  match s with
  | [] => [[]]
  | c :: r =>
      if is_sep c then [] :: pieces is_sep r
      else match pieces is_sep r with
           | [] => [[c]]
           | p :: ps => (c :: p) :: ps
           end
  end.

Definition nonempty (p : text) : bool :=
  match p with
  | [] => false
  | _ :: _ => true
  end.

(** [s.split(sep)] *)
Definition split_on (sep : N) (s : text) : list text :=
  pieces (fun c => (c =? sep)%N) s.

(** [s.split()]: the maximal runs of characters that are not whitespace. *)
Definition split (s : text) : list text := filter nonempty (pieces isspace s).

(** [x.is_integer()] and [int(x)] for a float [x]. *)
Definition is_integer (x : Qc) : bool := Pos.eqb (Qden x) 1.
Definition int (x : Qc) : Z := Z.quot (Qnum x) (Zpos (Qden x)).

(** [list(range(a, b))] *)
Definition range (a b : Z) : list Z :=
  map (fun i => (a + Z.of_nat i)%Z) (seq 0 (Z.to_nat (b - a))).

(** [sep.join(ts)] *)
Fixpoint join_text (sep : text) (ts : list text) : text :=
  match ts with
  | [] => []
  | [t] => t
  | t :: ts' => t ++ sep ++ join_text sep ts'
  end.

(** [list(enumerate(xs))] *)
Definition enumerate {A : Type} (xs : list A) : list (nat * A) :=
  combine (seq 0 (List.length xs)) xs.

(** [str(n)] for a Python int: decimal digits after an optional minus sign. *)
Fixpoint uint_text (d : Decimal.uint) : text :=
  match d with
  | Decimal.Nil => []
  | Decimal.D0 r => 48%N :: uint_text r
  | Decimal.D1 r => 49%N :: uint_text r
  | Decimal.D2 r => 50%N :: uint_text r
  | Decimal.D3 r => 51%N :: uint_text r
  | Decimal.D4 r => 52%N :: uint_text r
  | Decimal.D5 r => 53%N :: uint_text r
  | Decimal.D6 r => 54%N :: uint_text r
  | Decimal.D7 r => 55%N :: uint_text r
  | Decimal.D8 r => 56%N :: uint_text r
  | Decimal.D9 r => 57%N :: uint_text r
  end.

Definition str_int (z : Z) : text :=
  match Z.to_int z with
  | Decimal.Pos d => uint_text d
  | Decimal.Neg d => 45%N :: uint_text d
  end.

(** What [parse_values] does: it returns the values, or raises the
    ValueError whose message quotes a token, or fails to unpack a pair. *)
Inductive parsed : Type :=
| Values (vals : list Qc)
| BadToken (token : text)
| UnpackError.

(** [for x in xs: acc = step(acc, x)] over parsed values, stopping at the
    first exception. *)
Fixpoint collect (step : text -> parsed) (tokens : list text) (acc : list Qc)
  : parsed :=
  match tokens with
  | [] => Values acc
  | t :: ts =>
      match step t with
      | Values vs => collect step ts (acc ++ vs)
      | BadToken p => BadToken p
      | UnpackError => UnpackError
      end
  end.

(** The first application. *)
Module App1.
Section Float.

Variable float : text -> option Qc.

(** The tokens: [[p for p in raw.split(" ") if p != ""]] after the
    separators have been replaced by spaces. *)
Definition parts (raw : text) : list text :=
  let raw := fold_left (fun r ch => replace_char ch 32 r) [44; 10; 9; 59]%N raw in
  filter nonempty (split_on 32 raw).

(** The body of the loop over the tokens. *)
Definition token_value (p : text) : parsed :=
  match float p with
  | Some x => Values [x]
  | None => BadToken p
  end.

(** [parse_values], on the content of the text widget. *)
Definition parse_values (content : text) : parsed :=
  let raw := strip content in
  if negb (nonempty raw) then Values []
  else collect token_value (parts raw) [].

End Float.

Section Handlers.

Variable float : text -> option Qc.

(** The successive outputs of [random.random()]. *)
Variable random : nat -> Qc.

(** [str(x)] for a float [x] that is not an integer, and
    [np.array2string(seeds, precision=6, separator=', ')]: how Python and
    numpy print floats is theirs, not the repository's. *)
Variable str_float : Qc -> text.
Variable array2string : list Qc -> text.

Definition _format_num (x : Qc) : text :=
  if is_integer x then str_int (int x) else str_float x.

Definition format_output (clusters : list (list Qc)) (seeds : list Qc) : text :=
  let lines :=
    (str "Seeds: " ++ array2string seeds)
    :: map (fun ic : nat * list Qc =>
              let (i, c) := ic in
              let items := map _format_num c in
              str "Cluster " ++ str_int (Z.of_nat i) ++ str " ("
              ++ str_int (Z.of_nat (List.length c)) ++ str "): "
              ++ join_text (str ", ") items)
         (enumerate clusters) in
  join_text [10%N] lines.

(** The message boxes of the handlers. *)
Inductive dialog : Type :=
| InputError (e : parsed)
| ParameterError
| SaveFailed
| SavedTo (path : text).

(** What a handler does besides changing the result box. *)
Inductive effect : Type :=
| Message (d : dialog)
| WriteFile (path : text) (content : text).

(** [on_preview].  [content] is the text of the input box, [n] and [lloyd]
    are [int(...)] of the two spin boxes (nothing where [int] raises), and
    [txt_result] is the text of the result box; the handler returns the new
    text of the result box and its effects, or lets an exception escape. *)
Definition on_preview (content : text) (n lloyd : option Z) (init : string)
    (txt_result : text) (g : nat)
  : result (text * list effect) * nat :=
  match parse_values float content with
  | Values vals =>
      match n, lloyd with
      | Some n, Some lloyd =>
          match partition_voronoi random vals n lloyd init g with
          | (Ok (clusters, seeds), g') =>
              (Ok (format_output clusters seeds, []), g')
          | (Raise e, g') => (Raise e, g')
          end
      | _, _ => (Ok (txt_result, [Message ParameterError]), g)
      end
  | e => (Ok (txt_result, [Message (InputError e)]), g)
  end.

(** [on_convert].  [confirm] is the answer to the question asked when there
    are more clusters than numbers, and [saved] is the path that
    [save_to_desktop] returns, or nothing where it raises. *)
Definition on_convert (content : text) (n lloyd : option Z) (init : string)
    (confirm : bool) (saved : option text) (txt_result : text) (g : nat)
  : result (text * list effect) * nat :=
  match parse_values float content with
  | Values vals =>
      match n, lloyd with
      | Some n, Some lloyd =>
          if (Z.of_nat (List.length vals) <? n)%Z && negb confirm
          then (Ok (txt_result, []), g)
          else
            match partition_voronoi random vals n lloyd init g with
            | (Ok (clusters, seeds), g') =>
                let out := format_output clusters seeds in
                match saved with
                | None => (Ok (txt_result, [Message SaveFailed]), g')
                | Some path =>
                    (Ok (out, [WriteFile path out; Message (SavedTo path)]), g')
                end
            | (Raise e, g') => (Raise e, g')
            end
      | _, _ => (Ok (txt_result, [Message ParameterError]), g)
      end
  | e => (Ok (txt_result, [Message (InputError e)]), g)
  end.

End Handlers.
End App1.

(** The second application. *)
Module App2.
Section Float.

Variable float : text -> option Qc.

(** Whether Python can build [list(range(a, b))]: a list too long for the
    machine raises OverflowError or MemoryError, which is the machine's to
    decide. *)
Variable buildable : Z -> Z -> bool.

(** The range branch of the loop body, the [try] with its
    [except Exception: pass]: the values of a token [a-b], or nothing when
    the branch falls through to [float(token)], because [float] rejects an
    end, an end is no integer, the ends descend, or the list cannot be
    built. *)
Definition range_values (a b : text) : option (list Qc) :=
  match float a with
  | None => None
  | Some a_f =>
      match float b with
      | None => None
      | Some b_f =>
          if is_integer a_f && is_integer b_f then
            let a_i := int a_f in
            let b_i := int b_f in
            if (a_i <=? b_i)%Z then
              if buildable a_i (b_i + 1) then
                Some (map of_Z (range a_i (b_i + 1)))
              else None
            else None
          else None
      end
  end.

(** The body of the loop over the tokens. *)
Definition token_values (token : text) : parsed :=
  let plain :=
    match float token with
    | Some x => Values [x]
    | None => BadToken token
    end in
  if existsb (fun c => (c =? 45)%N) token
     && Nat.eqb (count_occ N.eq_dec token 45%N) 1 then
    match split_on 45 token with
    | [a; b] =>
        match range_values a b with
        | Some vs => Values vs
        | None => plain
        end
    | _ => UnpackError
    end
  else plain.

(** [parse_values], on the content of the text widget. *)
Definition parse_values (content : text) : parsed :=
  let raw := strip content in
  if negb (nonempty raw) then Values []
  else
    let tokens := split (replace_char 44 32 raw) in
    collect token_values tokens [].

End Float.

Section Handlers.

Variable float : text -> option Qc.
Variable buildable : Z -> Z -> bool.

(** The successive outputs of [random.random()]. *)
Variable random : nat -> Qc.

(** The lines that [on_run] puts in the output box.  Each stands for the
    text that the f-string of the source gives for the data it carries; the
    characters depend on how Python prints the stored values (the integers
    of a range and floats print differently), which the numbers of the
    model do not keep. *)
Inductive line : Type :=
| MethodLine (init_method : string)
| ItersLine (lloyd_iters : Z)
| SitesLine (n_seeds : Z)
| Rule
| SeedsTitle
| SeedLine (i : nat) (s : Qc)
| ClusterLine (i : nat) (c : list Qc).

(** The state of the application that the handlers read and write. *)
Record app : Type := {
  last_result : option (list (list Qc) * list Qc);
  output_text : list line
}.

Inductive dialog : Type :=
| InputError (e : parsed)
| EmptyInput
| PartitionError (e : exn)
| NoData
| Saved (path : text)
| SaveError.

(** What [on_save_csv] writes to the file: the header, and the row
    [f"{i},{v}\n"] of a cluster index and a stored value. *)
Inductive written : Type :=
| Header
| Row (i : nat) (v : Qc).

Inductive effect : Type :=
| Message (d : dialog)
| WriteFile (path : text) (chunks : list written).

Definition out_lines (init_method : string) (lloyd_iters n_seeds : Z)
    (clusters : list (list Qc)) (seeds : list Qc) : list line :=
  [MethodLine init_method; ItersLine lloyd_iters; SitesLine n_seeds; Rule;
   SeedsTitle]
  ++ map (fun p : nat * Qc => let (i, s) := p in SeedLine i s) (enumerate seeds)
  ++ [Rule]
  ++ map (fun p : nat * list Qc => let (i, c) := p in ClusterLine i c)
       (enumerate clusters).

(** How a handler ends: it returns, leaving a state and its effects, or an
    exception leaves it, which is the TclError of [IntVar.get()] on an
    entry whose text is no number; the state is then as it was. *)
Inductive outcome : Type :=
| Returns (st : app) (effects : list effect)
| TclError.

Definition state_after (o : outcome) (st : app) : app :=
  match o with
  | Returns st' _ => st'
  | TclError => st
  end.

(** [on_run], without the drawing.  [content] is the text of the input box;
    [n_seeds] and [lloyd_iters] are what [IntVar.get()] gives for the two
    entries, nothing where it raises: the two are read after the input has
    been parsed and found not empty, outside any [try]. *)
Definition on_run (content : text) (n_seeds lloyd_iters : option Z)
    (init_method : string) (st : app) (g : nat)
  : outcome * nat :=
  match parse_values float buildable content with
  | Values values =>
      if Nat.eqb (List.length values) 0 then
        (Returns st [Message EmptyInput], g)
      else
        match n_seeds with
        | None => (TclError, g)
        | Some n_seeds =>
            match lloyd_iters with
            | None => (TclError, g)
            | Some lloyd_iters =>
                match partition_voronoi_2 random values n_seeds lloyd_iters
                        init_method g with
                | (Ok (clusters, seeds), g') =>
                    (Returns
                       {| last_result := Some (clusters, seeds);
                          output_text :=
                            out_lines init_method lloyd_iters n_seeds clusters
                              seeds |}
                       [], g')
                | (Raise e, g') =>
                    (Returns st [Message (PartitionError e)], g')
                end
            end
        end
  | e => (Returns st [Message (InputError e)], g)
  end.

Definition on_clear_output (st : app) : app :=
  {| last_result := last_result st; output_text := [] |}.

(** The rows of the CSV, in the order of the two loops. *)
Definition csv_rows (clusters : list (list Qc)) : list written :=
  concat (map (fun p : nat * list Qc =>
                 let (i, cluster) := p in map (fun v => Row i v) cluster)
            (enumerate clusters)).

(** [on_save_csv].  [path] is the answer of the file dialog (empty when it
    is cancelled) and [io_ok] tells whether opening and writing succeed. *)
Definition on_save_csv (st : app) (path : text) (io_ok : bool) : list effect :=
  match last_result st with
  | None => [Message NoData]
  | Some (clusters, seeds) =>
      if negb (nonempty path) then []
      else if io_ok then
        [WriteFile path (Header :: csv_rows clusters); Message (Saved path)]
      else [Message SaveError]
  end.

(** The states that the handlers reach from the start of the application:
    [on_run] and [on_clear_output] are the handlers that write the state. *)
Inductive reachable : app -> Prop :=
| reach_start : reachable {| last_result := None; output_text := [] |}
| reach_run content n_seeds lloyd_iters init_method st g :
    reachable st ->
    reachable
      (state_after (fst (on_run content n_seeds lloyd_iters init_method st g)) st)
| reach_clear st : reachable st -> reachable (on_clear_output st).

End Handlers.
End App2.

(** ** Notions used in the statements *)

(** [m] at index [r] is a first minimum of [row]. *)
Definition first_min (row : list Qc) (r : nat) (m : Qc) : Prop :=
  nth_error row r = Some m /\
  (forall j x, nth_error row j = Some x -> (m <= x)%Qc) /\
  (forall j x, j < r -> nth_error row j = Some x -> (m < x)%Qc).

(** Seed [i] is the nearest seed of [v], the lowest index among the nearest. *)
Definition nearest_seed (seeds : list Qc) (v : Qc) (i : nat) : Prop :=
  exists si, nth_error seeds i = Some si /\
    (forall j sj, nth_error seeds j = Some sj ->
       (Qcabs (v - si) <= Qcabs (v - sj))%Qc) /\
    (forall j sj, j < i -> nth_error seeds j = Some sj ->
       (Qcabs (v - si) < Qcabs (v - sj))%Qc).

(** The position the specification gives seed [s] after a pass: the mean of
    the values assigned to it, or its previous position when there are none. *)
Definition spec_position (arr : list Qc) (idx : list nat) (seeds : list Qc)
    (s : nat) : Qc :=
  match members arr idx s with
  | [] => nth s seeds (Q2Qc 0)
  | m => (asum m / of_nat (List.length m))%Qc
  end.

(** Whether the specification's position of seed [s] differs from its
    previous one. *)
Definition spec_moved (arr : list Qc) (idx : list nat) (seeds : list Qc)
    (s : nat) : bool :=
  negb (Qceqb (spec_position arr idx seeds s) (nth s seeds (Q2Qc 0))).

(** [clusters] and [seeds] are a Voronoi partition of [values] into [n]
    cells: cluster [k] holds, in the order of [values], the values whose
    nearest seed is seed [k]. *)
Definition voronoi_partition (values : list Qc) (n : nat)
    (clusters : list (list Qc)) (seeds : list Qc) : Prop :=
  List.length seeds = n /\
  List.length clusters = n /\
  exists idx,
    nearest values seeds = Ok idx /\
    forall k, k < n -> nth_error clusters k = Some (members values idx k).

(** ** Sample data *)

Definition numbers (l : list Z) : list Qc := map of_Z l.

(** A random source that always answers one half. *)
Definition always_half : nat -> Qc := fun _ => Q2Qc (1 # 2).

(** What a result shows when printed. *)
Definition show (r : result (list (list Qc) * list Qc))
  : option (list (list Q) * list Q) :=
  match r with
  | Ok (clusters, seeds) => Some (map (map this) clusters, map this seeds)
  | Raise _ => None
  end.



(** The two components of what [partition_voronoi] returns. *)
Definition returned_clusters (r : result (list (list Qc) * list Qc))
  : list (list Qc) :=
  match r with
  | Ok (clusters, _) => clusters
  | Raise _ => []
  end.

Definition returned_seeds (r : result (list (list Qc) * list Qc)) : list Qc :=
  match r with
  | Ok (_, seeds) => seeds
  | Raise _ => []
  end.

(** The characters that separate tokens in the first application (comma,
    newline, tab, semicolon, space) and in the second (whitespace, comma). *)
Definition separator_1 (c : N) : bool :=
  ((c =? 44) || (c =? 10) || (c =? 9) || (c =? 59) || (c =? 32))%N%bool.

Definition separator_2 (c : N) : bool := (isspace c || (c =? 44)%N)%bool.

(** A stand-in for [float] that reads decimal integers with an optional
    minus sign, as Python does, and rejects everything else. *)
Definition digit (c : N) : option Z :=
  if ((48 <=? c) && (c <=? 57))%N%bool then Some (Z.of_N c - 48)%Z else None.

Fixpoint digits_value (acc : Z) (s : text) : option Z :=
  match s with
  | [] => Some acc
  | c :: r =>
      match digit c with
      | Some d => digits_value (10 * acc + d)%Z r
      | None => None
      end
  end.

Definition integer_float (s : text) : option Qc :=
  match s with
  | [] => None
  | c :: r =>
      if (c =? 45)%N then
        match r with
        | [] => None
        | _ :: _ => option_map (fun z => of_Z (- z)) (digits_value 0 r)
        end
      else option_map of_Z (digits_value 0 s)
  end.

(** A machine that builds every list of at most [sys.maxsize] items, the
    longest that Python allows on a 64-bit machine. *)
Definition fits_ssize_t (a b : Z) : bool := (b - a <=? 9223372036854775807)%Z.

(** What a handler returns when it returns. *)
Definition value_or {A : Type} (d : A) (r : result A) : A :=
  match r with
  | Ok a => a
  | Raise _ => d
  end.

(** The state of the second application when it starts. *)
Definition app2_start : App2.app :=
  {| App2.last_result := None; App2.output_text := [] |}.

(** ** Notions used in the statements over doubles *)

Module DoublesNotions.
Import PrimFloat.

(** [r] is the index that [argmin] gives for [row]: the first NaN of the
    row or, in a row without NaN, its first least entry. *)
Definition first_nan_or_min (row : list float) (r : nat) : Prop :=
  exists m, nth_error row r = Some m
    /\ (is_nan m = true ->
        forall j x, j < r -> nth_error row j = Some x -> is_nan x = false)
    /\ (is_nan m = false ->
        forall j x, nth_error row j = Some x ->
          (m <=? x)%float = true /\ (j < r -> (m <? x)%float = true)).

(** The position of seed [s] after a pass, and whether the pass counts it
    as moved. *)
Definition new_position (np : Doubles.numpy) (arr : list float) (idx : list nat)
    (seeds : list float) (s : nat) : float :=
  match Doubles.members arr idx s with
  | [] => nth s seeds 0%float
  | m => Doubles.mean np m
  end.

Definition has_moved (np : Doubles.numpy) (arr : list float) (idx : list nat)
    (seeds : list float) (s : nat) : bool :=
  match Doubles.members arr idx s with
  | [] => false
  | m => negb (Doubles.mean np m =? nth s seeds 0)%float
  end.

(** The distance between the numbers that two doubles stand for. *)
Definition real_distance (v s : float) : option Q :=
  match Doubles.exact v, Doubles.exact s with
  | Some a, Some b => Some (Qabs (a - b))
  | _, _ => None
  end.

End DoublesNotions.

(** Sample data over doubles: a stand-in for numpy that is good for short
    arrays.  It adds from left to right, as numpy adds fewer than eight
    numbers, takes the least and the greatest by comparison, sorts by
    insertion, spaces [num] points by the step [1 / (num - 1)] and
    interpolates linearly between the two order statistics around the
    position [(n - 1) * p]. *)
Module Sample.
Import PrimFloat.

Definition sum (a : list float) : float :=
  match a with
  | [] => 0%float
  | x :: r => fold_left add r x
  end.

Definition min (a : list float) : float :=
  match a with
  | [] => nan
  | x :: r => fold_left (fun m y => if (m <=? y)%float || is_nan m then m else y) r x
  end.

Definition max (a : list float) : float :=
  match a with
  | [] => nan
  | x :: r => fold_left (fun m y => if (y <=? m)%float || is_nan m then m else y) r x
  end.

Fixpoint insert (x : float) (xs : list float) : list float :=
  match xs with
  | [] => [x]
  | y :: ys => if (x <=? y)%float then x :: y :: ys else y :: insert x ys
  end.

Definition sort (a : list float) : list float := fold_right insert [] a.

Definition linspace (num : nat) : list float :=
  map (fun i => (Doubles.of_nat i * (1 / Doubles.of_nat (num - 1)))%float)
    (seq 0 num).

(** The integer part of a double that is not negative. *)
Definition floor (x : float) : nat :=
  match FloatOps.Prim2SF x with
  | SpecFloat.S754_finite false m e =>
      Z.to_nat (if (0 <=? e)%Z then Z.shiftl (Zpos m) e
                else Z.shiftr (Zpos m) (- e))
  | _ => 0
  end.

Definition quantile (a : list float) (p : float) : float :=
  let n := List.length a in
  let virtual := (Doubles.of_nat (n - 1) * p)%float in
  let previous := floor virtual in
  let next := Nat.min (previous + 1) (n - 1) in
  let gamma := (virtual - Doubles.of_nat previous)%float in
  let lo := nth previous a nan in
  let hi := nth next a nan in
  if (0.5 <=? gamma)%float then (hi - (hi - lo) * (1 - gamma))%float
  else (lo + (hi - lo) * gamma)%float.

Definition numpy : Doubles.numpy :=
  {| Doubles.sum := sum; Doubles.min := min; Doubles.max := max;
     Doubles.sort := sort; Doubles.linspace := linspace;
     Doubles.quantile := quantile |}.

(** A random source that always answers one half. *)
Definition half : nat -> float := fun _ => 0.5%float.

(** A Python float is its own double; a Python int from 0 to 2^63 - 1 is
    rounded to the nearest double. *)
Definition itself (x : float) : float := x.
Definition int_float (z : Z) : float := of_uint63 (Uint63.of_Z z).

(** Some doubles by name: the double nearest to 0.1, which prints as 0.1,
    the next double above it, which prints as 0.10000000000000002, and
    10^17, which is a double. *)
Definition tenth : float := 0x1.999999999999ap-4%float.
Definition above_tenth : float := 0x1.999999999999bp-4%float.
Definition large : float := 1e17%float.

End Sample.

(** ** Comparisons *)

Lemma Qcltb_lt (x y : Qc) : Qcltb x y = true <-> (x < y)%Qc.
Proof.
  unfold Qcltb, Qclt. rewrite negb_true_iff. split.
  - intros H. apply Qnot_le_lt. intros Hle.
    apply Qle_bool_iff in Hle. congruence.
  - intros H. destruct (Qle_bool y x) eqn:E; [|reflexivity].
    apply Qle_bool_iff in E. exfalso. exact (Qlt_not_le _ _ H E).
Qed.

Lemma Qcltb_ge (x y : Qc) : Qcltb x y = false <-> (y <= x)%Qc.
Proof.
  unfold Qcltb, Qcle. rewrite negb_false_iff. apply Qle_bool_iff.
Qed.

Lemma Qceqb_eq (x y : Qc) : Qceqb x y = true <-> x = y.
Proof.
  unfold Qceqb. rewrite Qeq_bool_iff. split.
  - apply Qc_is_canon.
  - intros ->. reflexivity.
Qed.

Lemma Qceqb_refl (x : Qc) : Qceqb x x = true.
Proof. now apply Qceqb_eq. Qed.

(** ** Indexing *)

Lemma getitem_Ok {A} (xs : list A) i x :
  getitem xs i = Ok x <-> nth_error xs i = Some x.
Proof.
  unfold getitem. destruct (nth_error xs i); split; congruence.
Qed.

Lemma getitem_lt {A} (xs : list A) i :
  i < List.length xs -> exists x, getitem xs i = Ok x.
Proof.
  intros H. unfold getitem.
  destruct (nth_error xs i) eqn:E; [eauto|].
  apply nth_error_None in E. lia.
Qed.

Lemma setitem_lt {A} (xs : list A) i v :
  i < List.length xs -> exists ys, setitem xs i v = Ok ys.
Proof.
  revert i. induction xs as [|x xs IH]; intros [|i] H; simpl in *; try lia.
  - eauto.
  - destruct (IH i) as [ys ->]; [lia|]. simpl. eauto.
Qed.

Lemma setitem_length {A} (xs ys : list A) i v :
  setitem xs i v = Ok ys -> List.length ys = List.length xs.
Proof.
  revert i ys. induction xs as [|x xs IH]; intros [|i] ys; simpl; try discriminate.
  - intros [= <-]. reflexivity.
  - destruct (setitem xs i v) eqn:E; simpl; [|discriminate].
    intros [= <-]. simpl. f_equal. eauto.
Qed.

Lemma setitem_bound {A} (xs ys : list A) i v :
  setitem xs i v = Ok ys -> i < List.length xs.
Proof.
  revert i ys. induction xs as [|x xs IH]; intros [|i] ys; simpl; try discriminate.
  - lia.
  - destruct (setitem xs i v) eqn:E; simpl; [|discriminate].
    intros _. apply IH in E. lia.
Qed.

Lemma setitem_nth_same {A} (xs ys : list A) i v :
  setitem xs i v = Ok ys -> nth_error ys i = Some v.
Proof.
  revert i ys. induction xs as [|x xs IH]; intros [|i] ys; simpl; try discriminate.
  - intros [= <-]. reflexivity.
  - destruct (setitem xs i v) eqn:E; simpl; [|discriminate].
    intros [= <-]. simpl. eauto.
Qed.

Lemma setitem_nth_other {A} (xs ys : list A) i j v :
  setitem xs i v = Ok ys -> j <> i -> nth_error ys j = nth_error xs j.
Proof.
  revert i j ys. induction xs as [|x xs IH]; intros [|i] j ys; simpl; try discriminate.
  - intros [= <-] Hj. destruct j; [congruence|reflexivity].
  - destruct (setitem xs i v) eqn:E; simpl; [|discriminate].
    intros [= <-] Hj. destruct j; simpl; [reflexivity|].
    eapply IH; eauto.
Qed.

(** Writing back the value already stored changes nothing. *)
Lemma setitem_same {A} (xs ys : list A) i v :
  setitem xs i v = Ok ys -> nth_error xs i = Some v -> ys = xs.
Proof.
  revert i ys. induction xs as [|x xs IH]; intros [|i] ys; simpl; try discriminate.
  - intros [= <-] [= ->]. reflexivity.
  - destruct (setitem xs i v) eqn:E; simpl; [|discriminate].
    intros [= <-] Hn. f_equal. eauto.
Qed.

(** ** The error monad *)

Lemma mapM_Forall2 {A B} (f : A -> result B) xs ys :
  mapM f xs = Ok ys <-> Forall2 (fun x y => f x = Ok y) xs ys.
Proof.
  revert ys. induction xs as [|x xs IH]; intros ys; simpl.
  - split.
    + intros [= <-]. constructor.
    + intros H. inversion H. reflexivity.
  - split.
    + destruct (f x) as [y|] eqn:Ex; simpl; [|discriminate].
      destruct (mapM f xs) as [ys'|] eqn:Em; simpl; [|discriminate].
      intros [= <-]. constructor; [assumption|]. now apply IH.
    + intros H. inversion H as [|x' y xs' ys' Hxy Hrest]; subst.
      rewrite Hxy. simpl. apply IH in Hrest. rewrite Hrest. reflexivity.
Qed.

Lemma mapM_total {A B} (f : A -> result B) xs :
  (forall x, In x xs -> exists y, f x = Ok y) -> exists ys, mapM f xs = Ok ys.
Proof.
  induction xs as [|x xs IH]; intros H; simpl.
  - eauto.
  - destruct (H x) as [y ->]; [now left|].
    destruct IH as [ys ->]; [intros; apply H; now right|].
    simpl. eauto.
Qed.

Lemma Forall2_nth_error {A B} (R : A -> B -> Prop) xs ys :
  Forall2 R xs ys ->
  forall p x y, nth_error xs p = Some x -> nth_error ys p = Some y -> R x y.
Proof.
  induction 1 as [|x0 y0 xs ys Hxy _ IH]; intros [|p] x y; simpl; try discriminate.
  - intros [= <-] [= <-]. assumption.
  - apply IH.
Qed.

(** ** [argmin]: the first least entry *)

Lemma argmin_scan_spec (full : list Qc) :
  forall row pre mp min_ind,
    full = pre ++ row ->
    min_ind < List.length pre ->
    nth_error full min_ind = Some mp ->
    (forall j x, j < List.length pre -> nth_error full j = Some x -> (mp <= x)%Qc) ->
    (forall j x, j < min_ind -> nth_error full j = Some x -> (mp < x)%Qc) ->
    exists m, first_min full (argmin_scan mp min_ind (List.length pre) row) m.
Proof.
  induction row as [|x row IH]; intros pre mp min_ind Hfull Hlt Hmp Hle Hfirst.
  - simpl. exists mp. split; [assumption|split]; auto.
    intros j y Hj. apply (Hle j); auto.
    rewrite app_nil_r in Hfull. subst full.
    apply nth_error_Some. congruence.
  - assert (Hx : nth_error full (List.length pre) = Some x).
    { subst full. rewrite nth_error_app2 by lia.
      rewrite Nat.sub_diag. reflexivity. }
    assert (Hfull' : full = (pre ++ [x]) ++ row).
    { rewrite <- app_assoc. exact Hfull. }
    assert (Hlen : List.length (pre ++ [x]) = S (List.length pre)).
    { rewrite length_app. simpl. lia. }
    simpl. destruct (Qcltb x mp) eqn:E.
    + apply Qcltb_lt in E.
      rewrite <- Hlen. apply IH; auto.
      * lia.
      * intros j y Hj Hy. rewrite Hlen in Hj.
        destruct (Nat.eq_dec j (List.length pre)) as [->|Hne].
        -- rewrite Hx in Hy. injection Hy as <-. apply Qcle_refl.
        -- apply Qclt_le_weak. eapply Qclt_le_trans; [exact E|].
           apply (Hle j); auto. lia.
      * intros j y Hj Hy. eapply Qclt_le_trans; [exact E|].
        apply (Hle j); auto.
    + apply Qcltb_ge in E.
      rewrite <- Hlen. apply IH; auto.
      * lia.
      * intros j y Hj Hy. rewrite Hlen in Hj.
        destruct (Nat.eq_dec j (List.length pre)) as [->|Hne].
        -- rewrite Hx in Hy. injection Hy as <-. exact E.
        -- apply (Hle j); auto. lia.
Qed.

Lemma argmin_spec (row : list Qc) (r : nat) :
  argmin row = Ok r -> exists m, first_min row r m.
Proof.
  destruct row as [|x row]; simpl; [discriminate|].
  intros [= <-].
  apply (argmin_scan_spec (x :: row) row [x]); simpl; auto.
  - intros [|j] y Hj; [|lia]. simpl. intros [= <-]. apply Qcle_refl.
  - intros j y Hj. exfalso. inversion Hj.
Qed.

Lemma first_min_bound row r m : first_min row r m -> r < List.length row.
Proof.
  intros [H _]. apply nth_error_Some. congruence.
Qed.

(** A first minimum is unique: [argmin] is determined by its specification. *)
Lemma first_min_unique row r m r' m' :
  first_min row r m -> first_min row r' m' -> r = r' /\ m = m'.
Proof.
  intros (Hr & Hle & Hlt) (Hr' & Hle' & Hlt').
  destruct (Nat.lt_trichotomy r r') as [H|[H|H]].
  - exfalso. apply (Qclt_not_le _ _ (Hlt' r m H Hr)). eauto.
  - subst r'. split; congruence.
  - exfalso. apply (Qclt_not_le _ _ (Hlt r' m' H Hr')). eauto.
Qed.

(** ** The assignment *)

Lemma distances_nth v seeds j :
  nth_error (distances v seeds) j =
  option_map (fun s => Qcabs (v - s)) (nth_error seeds j).
Proof. unfold distances. apply nth_error_map. Qed.

Lemma argmin_distances v seeds i :
  argmin (distances v seeds) = Ok i -> nearest_seed seeds v i.
Proof.
  intros H. apply argmin_spec in H as (m & Hm & Hle & Hlt).
  rewrite distances_nth in Hm.
  destruct (nth_error seeds i) as [si|] eqn:Ei; [|discriminate].
  injection Hm as <-. exists si. split; [exact Ei|split].
  - intros j sj Hj. apply (Hle j). rewrite distances_nth, Hj. reflexivity.
  - intros j sj Hlt' Hj. apply (Hlt j); auto.
    rewrite distances_nth, Hj. reflexivity.
Qed.

Lemma nearest_seed_bound seeds v i : nearest_seed seeds v i -> i < List.length seeds.
Proof.
  intros (si & H & _). apply nth_error_Some. congruence.
Qed.

Lemma nearest_Forall2 arr seeds idx :
  nearest arr seeds = Ok idx -> Forall2 (nearest_seed seeds) arr idx.
Proof.
  unfold nearest. rewrite mapM_Forall2. intros H.
  eapply Forall2_impl; [|exact H]. intros v i. apply argmin_distances.
Qed.

Lemma nearest_length arr seeds idx :
  nearest arr seeds = Ok idx -> List.length idx = List.length arr.
Proof.
  intros H. apply nearest_Forall2 in H. symmetry. eapply Forall2_length; eauto.
Qed.

Lemma nearest_bound arr seeds idx :
  nearest arr seeds = Ok idx -> Forall (fun i => i < List.length seeds) idx.
Proof.
  intros H. apply nearest_Forall2 in H.
  induction H; constructor; eauto using nearest_seed_bound.
Qed.

Lemma nearest_total arr seeds :
  seeds <> [] -> exists idx, nearest arr seeds = Ok idx.
Proof.
  intros H. apply mapM_total. intros v _.
  destruct seeds as [|s seeds]; [congruence|]. simpl. eauto.
Qed.

(** ** One relaxation pass *)

Lemma relocate_spec arr idx seeds cur mv s old :
  nth_error seeds s = Some old ->
  nth_error cur s = Some old ->
  exists new,
    relocate arr idx seeds (cur, mv) s = Ok (new, mv || spec_moved arr idx seeds s)
    /\ setitem cur s (spec_position arr idx seeds s) = Ok new.
Proof.
  intros Hs Hc.
  assert (Hlt : s < List.length cur) by (apply nth_error_Some; congruence).
  assert (Hold : nth s seeds (Q2Qc 0) = old) by (now apply nth_error_nth).
  unfold relocate, spec_moved, spec_position. rewrite Hold.
  destruct (members arr idx s) as [|x m] eqn:Em.
  - simpl. rewrite Qceqb_refl. simpl. rewrite orb_false_r.
    exists cur. split; [reflexivity|].
    destruct (setitem_lt cur s old Hlt) as [ys Hys].
    rewrite Hys. f_equal. eapply setitem_same; eauto.
  - cbn [List.length Nat.ltb Nat.leb mean bind].
    unfold getitem. rewrite Hs. cbn [bind].
    destruct (setitem_lt cur s (asum (x :: m) / of_nat (List.length (x :: m)))%Qc Hlt)
      as [ys Hys].
    cbn [List.length] in Hys. rewrite Hys. cbn [bind].
    exists ys. split; [|reflexivity].
    destruct (Qceqb _ old); destruct mv; reflexivity.
Qed.

Lemma relocate_fold arr idx seeds :
  forall k a cur mv,
    a + k <= List.length seeds ->
    List.length cur = List.length seeds ->
    (forall j, a <= j -> nth_error cur j = nth_error seeds j) ->
    exists new,
      foldM (relocate arr idx seeds) (seq a k) (cur, mv)
      = Ok (new, mv || existsb (spec_moved arr idx seeds) (seq a k))
      /\ List.length new = List.length seeds
      /\ (forall j, j < a -> nth_error new j = nth_error cur j)
      /\ (forall j, a <= j < a + k ->
            nth_error new j = Some (spec_position arr idx seeds j))
      /\ (forall j, a + k <= j -> nth_error new j = nth_error seeds j).
Proof.
  induction k as [|k IH]; intros a cur mv Hk Hlen Hcur.
  - exists cur. simpl. rewrite orb_false_r. repeat split; auto.
    + intros j Hj. lia.
    + intros j Hj. apply Hcur. lia.
  - destruct (nth_error seeds a) as [old|] eqn:Ea;
      [|apply nth_error_None in Ea; lia].
    destruct (relocate_spec arr idx seeds cur mv a old) as (new1 & Hrel & Hset);
      [assumption|rewrite Hcur by lia; assumption|].
    destruct (IH (S a) new1 (mv || spec_moved arr idx seeds a)) as
      (new & Hfold & Hlen' & Hbefore & Hin & Hafter).
    + lia.
    + rewrite (setitem_length _ _ _ _ Hset). assumption.
    + intros j Hj. rewrite (setitem_nth_other _ _ _ _ _ Hset) by lia.
      apply Hcur. lia.
    + exists new. cbn [seq foldM existsb]. rewrite Hrel. cbn [bind].
      rewrite Hfold, orb_assoc. repeat split; auto.
      * intros j Hj. rewrite Hbefore by lia.
        apply (setitem_nth_other _ _ _ _ _ Hset). lia.
      * intros j Hj. destruct (Nat.eq_dec j a) as [->|Hne].
        -- rewrite Hbefore by lia. apply (setitem_nth_same _ _ _ _ Hset).
        -- apply Hin. lia.
      * intros j Hj. apply Hafter. lia.
Qed.

(** What a pass returns, for as many seeds as [n_seeds]. *)
Lemma lloyd_pass_spec arr seeds :
  seeds <> [] ->
  exists idx new,
    nearest arr seeds = Ok idx
    /\ lloyd_pass arr seeds (List.length seeds)
       = Ok (new, existsb (spec_moved arr idx seeds) (seq 0 (List.length seeds)))
    /\ List.length new = List.length seeds
    /\ (forall s, s < List.length seeds ->
          nth_error new s = Some (spec_position arr idx seeds s)).
Proof.
  intros Hne. destruct (nearest_total arr seeds Hne) as [idx Hidx].
  destruct (relocate_fold arr idx seeds (List.length seeds) 0 seeds false)
    as (new & Hfold & Hlen & _ & Hin & _); auto.
  exists idx, new. unfold lloyd_pass. rewrite Hidx. cbn [bind].
  rewrite Hfold. simpl. repeat split; auto.
  intros s Hs. apply Hin. lia.
Qed.


(** ** The relaxation loop *)

Lemma lloyd_iterations_total arr :
  forall k seeds, seeds <> [] ->
    exists out, lloyd_iterations k arr seeds (List.length seeds) = Ok out
                /\ List.length out = List.length seeds.
Proof.
  induction k as [|k IH]; intros seeds Hne.
  - exists seeds. auto.
  - destruct (lloyd_pass_spec arr seeds Hne) as (idx & new & _ & Hpass & Hlen & _).
    cbn [lloyd_iterations]. rewrite Hpass. cbn [bind].
    destruct (existsb _ _); cbn [negb].
    + destruct (IH new) as (out & Hout & Hlen').
      * intros ->. destruct seeds; [congruence|discriminate].
      * exists out. rewrite <- Hlen, Hout. split; congruence.
    + exists new. auto.
Qed.


(** ** The final partition *)

Lemma members_cons v arr i idx k :
  members (v :: arr) (i :: idx) k
  = if Nat.eqb i k then v :: members arr idx k else members arr idx k.
Proof.
  unfold members. simpl. destruct (Nat.eqb i k); reflexivity.
Qed.

Lemma members_nil_l idx k : members [] idx k = [].
Proof. reflexivity. Qed.

Lemma members_nil_r arr k : members arr [] k = [].
Proof. destruct arr; reflexivity. Qed.

Lemma fst_combine {A B} (xs : list A) (ys : list B) :
  List.length ys = List.length xs -> map fst (combine xs ys) = xs.
Proof.
  revert ys. induction xs as [|x xs IH]; intros [|y ys] H; simpl in *;
    try discriminate; try reflexivity.
  f_equal. apply IH. lia.
Qed.

Lemma concat_repeat_nil {A} n : concat (repeat (@nil A) n) = [].
Proof. induction n; simpl; auto. Qed.

Lemma setitem_append_perm (cl cl1 : list (list Qc)) i c v :
  nth_error cl i = Some c ->
  setitem cl i (c ++ [v]) = Ok cl1 ->
  Permutation (concat cl1) (v :: concat cl).
Proof.
  revert i cl1. induction cl as [|x cl IH]; intros [|i] cl1; simpl; try discriminate.
  - intros [= ->] [= <-]. simpl. rewrite <- app_assoc. simpl.
    symmetry. apply Permutation_middle.
  - intros Hn. destruct (setitem cl i (c ++ [v])) as [ys|] eqn:E; simpl; [|discriminate].
    intros [= <-]. simpl.
    etransitivity; [apply Permutation_app_head, (IH i ys Hn E)|].
    symmetry. apply Permutation_middle.
Qed.

Lemma append_at_fold (n : nat) :
  forall values idx cl,
    List.length cl = n ->
    Forall (fun i => i < n) idx ->
    exists cl',
      foldM append_at (combine values idx) cl = Ok cl'
      /\ List.length cl' = n
      /\ (forall k c, nth_error cl k = Some c ->
            nth_error cl' k = Some (c ++ members values idx k))
      /\ Permutation (concat cl') (concat cl ++ map fst (combine values idx)).
Proof.
  induction values as [|v values IH]; intros idx cl Hlen Hidx.
  - exists cl. simpl. rewrite app_nil_r. repeat split; auto.
    intros k c Hk. rewrite app_nil_r. assumption.
  - destruct idx as [|i idx].
    + exists cl. simpl. rewrite app_nil_r. repeat split; auto.
      intros k c Hk. rewrite app_nil_r. assumption.
    + inversion Hidx as [|i' idx' Hi Hrest]; subst i' idx'.
      destruct (nth_error cl i) as [c|] eqn:Ec;
        [|apply nth_error_None in Ec; lia].
      destruct (setitem_lt cl i (c ++ [v])) as [cl1 Hset]; [lia|].
      destruct (IH idx cl1) as (cl' & Hfold & Hlen' & Hnth & Hperm); auto.
      { rewrite (setitem_length _ _ _ _ Hset). assumption. }
      exists cl'. cbn [combine foldM append_at].
      unfold getitem. rewrite Ec. cbn [bind]. rewrite Hset. cbn [bind].
      rewrite Hfold. repeat split; auto.
      * intros k ck Hk. rewrite members_cons.
        destruct (Nat.eqb_spec i k) as [->|Hne].
        -- rewrite Ec in Hk. injection Hk as <-.
           rewrite (Hnth k (c ++ [v])).
           ++ rewrite <- app_assoc. reflexivity.
           ++ apply (setitem_nth_same _ _ _ _ Hset).
        -- apply Hnth. rewrite (setitem_nth_other _ _ _ _ _ Hset) by congruence.
           assumption.
      * etransitivity; [exact Hperm|]. simpl.
        etransitivity;
          [apply Permutation_app_tail, (setitem_append_perm _ _ _ _ _ Ec Hset)|].
        simpl. apply Permutation_middle.
Qed.

Lemma build_clusters_spec values idx n :
  Forall (fun i => i < n) idx ->
  List.length idx = List.length values ->
  exists clusters,
    build_clusters values idx n = Ok clusters
    /\ List.length clusters = n
    /\ (forall k, k < n -> nth_error clusters k = Some (members values idx k))
    /\ Permutation (concat clusters) values.
Proof.
  intros Hidx Hlen.
  destruct (append_at_fold n values idx (repeat [] n)) as
    (cl & Hfold & Hlen' & Hnth & Hperm); auto using repeat_length.
  exists cl. unfold build_clusters. repeat split; auto.
  - intros k Hk. apply (Hnth k []). rewrite nth_error_repeat; auto.
  - rewrite concat_repeat_nil, fst_combine in Hperm; auto.
Qed.

(** ** From the seeds to the result *)

Lemma relax_and_split_spec values seeds0 lloyd_iters :
  seeds0 <> [] ->
  exists clusters seeds,
    relax_and_split values values seeds0 (List.length seeds0) lloyd_iters
    = Ok (clusters, seeds)
    /\ lloyd_iterations (Z.to_nat lloyd_iters) values seeds0 (List.length seeds0)
       = Ok seeds
    /\ voronoi_partition values (List.length seeds0) clusters seeds
    /\ Permutation (concat clusters) values.
Proof.
  intros Hne.
  destruct (lloyd_iterations_total values (Z.to_nat lloyd_iters) seeds0 Hne)
    as (seeds & Hloop & Hlen).
  assert (Hne' : seeds <> []).
  { intros ->. destruct seeds0; [congruence|discriminate]. }
  destruct (nearest_total values seeds Hne') as [idx Hidx].
  destruct (build_clusters_spec values idx (List.length seeds0))
    as (clusters & Hbuild & Hcl & Hnth & Hperm).
  { rewrite <- Hlen. eapply nearest_bound; eauto. }
  { eapply nearest_length; eauto. }
  exists clusters, seeds. unfold relax_and_split.
  rewrite Hloop. cbn [bind]. rewrite Hidx. cbn [bind]. rewrite Hbuild.
  repeat split; auto. exists idx. auto.
Qed.

(** ** The initial seeds *)

(** The interior quantile probabilities are [i / (n + 1)] for [i = 1 .. n]. *)
Lemma interior_linspace01 n :
  interior (linspace01 (n + 2))
  = map (fun i => (of_nat i / of_nat (n + 1))%Qc) (seq 1 n).
Proof.
  unfold interior, linspace01.
  replace (n + 2 - 1) with (n + 1) by lia.
  replace (n + 2) with (S (S n)) by lia.
  change (seq 0 (S (S n))) with (0 :: seq 1 (S n)).
  rewrite seq_S. cbn [map tl]. rewrite map_app. cbn [map].
  apply removelast_last.
Qed.

Lemma quantile_seeds_length arr n : List.length (quantile_seeds arr n) = n.
Proof.
  unfold quantile_seeds. rewrite interior_linspace01, !length_map.
  apply length_seq.
Qed.

Lemma amin_total arr : arr <> [] -> exists lo, amin arr = Ok lo.
Proof. destruct arr; [congruence|]. simpl. eauto. Qed.

Lemma amax_total arr : arr <> [] -> exists hi, amax arr = Ok hi.
Proof. destruct arr; [congruence|]. simpl. eauto. Qed.

Lemma nonempty_length {A} (xs : list A) n :
  List.length xs = n -> 0 < n -> xs <> [].
Proof. intros H Hn ->. simpl in H. lia. Qed.

Section PartitionerFacts.

Variable random : nat -> Qc.

Lemma uniform_seeds_length lo hi n g :
  List.length (fst (uniform_seeds random lo hi n g)) = n.
Proof.
  revert g. induction n as [|n IH]; intros g; simpl; [reflexivity|].
  specialize (IH (S g)).
  destruct (uniform_seeds random lo hi n (S g)). simpl in *. congruence.
Qed.

Lemma random_seeds_total arr n g :
  arr <> [] ->
  exists seeds g', random_seeds random arr n g = (Ok seeds, g')
                   /\ List.length seeds = n.
Proof.
  intros Hne. unfold random_seeds.
  destruct (amin_total arr Hne) as [lo ->].
  destruct (amax_total arr Hne) as [hi ->].
  pose proof (uniform_seeds_length lo hi n g) as Hlen.
  destruct (uniform_seeds random lo hi n g) as [seeds g']. eauto.
Qed.

Lemma random_seeds_2_total arr n g :
  arr <> [] ->
  exists seeds g', random_seeds_2 random arr n g = (Ok seeds, g')
                   /\ List.length seeds = n.
Proof.
  intros Hne. unfold random_seeds_2.
  destruct (amin_total arr Hne) as [lo ->].
  destruct (amax_total arr Hne) as [hi ->].
  destruct (Qceqb lo hi).
  - exists (repeat lo n), g. split; [reflexivity|apply repeat_length].
  - pose proof (uniform_seeds_length lo hi n g) as Hlen.
    destruct (uniform_seeds random lo hi n g) as [seeds g']. eauto.
Qed.

(** For a valid seed count and a non-empty input, the function is the
    relaxation and the final split run on [n_seeds] initial seeds. *)
Lemma partition_voronoi_unfold values n_seeds lloyd_iters init_method g :
  (1 <= n_seeds)%Z -> values <> [] ->
  exists seeds0 g',
    List.length seeds0 = Z.to_nat n_seeds
    /\ partition_voronoi random values n_seeds lloyd_iters init_method g
       = (relax_and_split values values seeds0 (Z.to_nat n_seeds) lloyd_iters, g').
Proof.
  intros Hn Hv. unfold partition_voronoi.
  destruct (Z.leb_spec n_seeds 0) as [H|_]; [lia|].
  destruct values as [|v values]; [congruence|]. cbn [List.length Nat.eqb].
  destruct (String.eqb init_method "quantile").
  - exists (quantile_seeds (v :: values) (Z.to_nat n_seeds)), g.
    split; [apply quantile_seeds_length|reflexivity].
  - destruct (random_seeds_total (v :: values) (Z.to_nat n_seeds) g Hv)
      as (seeds0 & g' & -> & Hlen).
    exists seeds0, g'. auto.
Qed.

Lemma partition_voronoi_2_unfold values n_seeds lloyd_iters init_method g :
  (1 <= n_seeds)%Z -> values <> [] ->
  exists seeds0 g',
    List.length seeds0 = Z.to_nat n_seeds
    /\ partition_voronoi_2 random values n_seeds lloyd_iters init_method g
       = (relax_and_split values values seeds0 (Z.to_nat n_seeds) lloyd_iters, g').
Proof.
  intros Hn Hv. unfold partition_voronoi_2.
  destruct (Z.leb_spec n_seeds 0) as [H|_]; [lia|].
  destruct values as [|v values]; [congruence|]. cbn [List.length Nat.eqb].
  destruct (String.eqb init_method "quantile").
  - exists (quantile_seeds (v :: values) (Z.to_nat n_seeds)), g.
    split; [apply quantile_seeds_length|reflexivity].
  - destruct (random_seeds_2_total (v :: values) (Z.to_nat n_seeds) g Hv)
      as (seeds0 & g' & -> & Hlen).
    exists seeds0, g'. auto.
Qed.

(** The result for a valid seed count and a non-empty input. *)
Lemma partition_voronoi_spec values n_seeds lloyd_iters init_method g :
  (1 <= n_seeds)%Z -> values <> [] ->
  exists clusters seeds g',
    partition_voronoi random values n_seeds lloyd_iters init_method g
    = (Ok (clusters, seeds), g')
    /\ voronoi_partition values (Z.to_nat n_seeds) clusters seeds
    /\ Permutation (concat clusters) values.
Proof.
  intros Hn Hv.
  destruct (partition_voronoi_unfold values n_seeds lloyd_iters init_method g Hn Hv)
    as (seeds0 & g' & Hlen & ->).
  assert (Hne : seeds0 <> []) by (apply (nonempty_length _ _ Hlen); lia).
  destruct (relax_and_split_spec values seeds0 lloyd_iters Hne)
    as (clusters & seeds & Hrun & _ & Hpart & Hperm).
  rewrite Hlen in *. exists clusters, seeds, g'. rewrite Hrun. auto.
Qed.

Lemma partition_voronoi_2_spec values n_seeds lloyd_iters init_method g :
  (1 <= n_seeds)%Z -> values <> [] ->
  exists clusters seeds g',
    partition_voronoi_2 random values n_seeds lloyd_iters init_method g
    = (Ok (clusters, seeds), g')
    /\ voronoi_partition values (Z.to_nat n_seeds) clusters seeds
    /\ Permutation (concat clusters) values.
Proof.
  intros Hn Hv.
  destruct (partition_voronoi_2_unfold values n_seeds lloyd_iters init_method g Hn Hv)
    as (seeds0 & g' & Hlen & ->).
  assert (Hne : seeds0 <> []) by (apply (nonempty_length _ _ Hlen); lia).
  destruct (relax_and_split_spec values seeds0 lloyd_iters Hne)
    as (clusters & seeds & Hrun & _ & Hpart & Hperm).
  rewrite Hlen in *. exists clusters, seeds, g'. rewrite Hrun. auto.
Qed.

End PartitionerFacts.

Section PartitionerTotal.

Variable random : nat -> Qc.

(** With a valid seed count the function returns, whatever the values. *)
Lemma partition_voronoi_total values n_seeds lloyd_iters init_method g :
  (1 <= n_seeds)%Z ->
  exists clusters seeds g',
    partition_voronoi random values n_seeds lloyd_iters init_method g
    = (Ok (clusters, seeds), g')
    /\ List.length clusters = Z.to_nat n_seeds.
Proof.
  intros Hn. destruct values as [|v values].
  - exists (repeat [] (Z.to_nat n_seeds)), [], g. unfold partition_voronoi.
    destruct (Z.leb_spec n_seeds 0) as [H|_]; [lia|].
    split; [reflexivity|apply repeat_length].
  - destruct (partition_voronoi_spec random (v :: values) n_seeds lloyd_iters
                init_method g Hn) as (clusters & seeds & g' & Hrun & Hpart & _);
      [discriminate|].
    exists clusters, seeds, g'. split; [assumption|apply Hpart].
Qed.

Lemma partition_voronoi_2_total values n_seeds lloyd_iters init_method g :
  (1 <= n_seeds)%Z ->
  exists clusters seeds g',
    partition_voronoi_2 random values n_seeds lloyd_iters init_method g
    = (Ok (clusters, seeds), g')
    /\ List.length clusters = Z.to_nat n_seeds.
Proof.
  intros Hn. destruct values as [|v values].
  - exists (repeat [] (Z.to_nat n_seeds)), [], g. unfold partition_voronoi_2.
    destruct (Z.leb_spec n_seeds 0) as [H|_]; [lia|].
    split; [reflexivity|apply repeat_length].
  - destruct (partition_voronoi_2_spec random (v :: values) n_seeds lloyd_iters
                init_method g Hn) as (clusters & seeds & g' & Hrun & Hpart & _);
      [discriminate|].
    exists clusters, seeds, g'. split; [assumption|apply Hpart].
Qed.

End PartitionerTotal.

(** ** More on the relaxation loop *)



(** ** Examples *)

(** The example of the command-line version. *)
Example partition_ten_quantile :
  show (fst (partition_voronoi always_half
               (numbers [0; 1; 2; 3; 4; 5; 6; 7; 8; 9]%Z) 3 10 "quantile" 0))
  = Some ([[0; 1; 2; 3]; [4; 5; 6]; [7; 8; 9]], [3 # 2; 5; 8])%Q.
Proof. vm_compute. reflexivity. Qed.

(** * The claims *)

(** C1. For a non-empty list of values and [n_seeds >= 1], whatever the
    iteration count and the initialisation method, [partition_voronoi]
    returns exactly [n_seeds] clusters, the lengths of the clusters add up to
    the length of the input, and the clusters together hold the values of the
    input as a multiset: no value is lost and none is duplicated. *)
Theorem partition_voronoi_partitions
    (random : nat -> Qc) (values : list Qc) (n_seeds lloyd_iters : Z)
    (init_method : string) (g : nat) :
  values <> [] -> (1 <= n_seeds)%Z ->
  exists clusters seeds g',
    partition_voronoi random values n_seeds lloyd_iters init_method g
    = (Ok (clusters, seeds), g')
    /\ List.length clusters = Z.to_nat n_seeds
    /\ list_sum (map (@List.length Qc) clusters) = List.length values
    /\ Permutation (concat clusters) values.
Proof.
  intros Hv Hn.
  destruct (partition_voronoi_spec random values n_seeds lloyd_iters init_method
              g Hn Hv) as (clusters & seeds & g' & Hrun & Hpart & Hperm).
  exists clusters, seeds, g'. repeat split; auto.
  - apply Hpart.
  - rewrite <- length_concat. apply Permutation_length. assumption.
Qed.

Lemma partition_voronoi_partitions_witness :
  numbers [1; 2; 3]%Z <> [] /\ (1 <= 5)%Z /\
  exists clusters seeds g',
    partition_voronoi always_half (numbers [1; 2; 3]%Z) 5 4 "random" 0
    = (Ok (clusters, seeds), g')
    /\ List.length clusters = Z.to_nat 5
    /\ list_sum (map (@List.length Qc) clusters) = List.length (numbers [1; 2; 3]%Z)
    /\ Permutation (concat clusters) (numbers [1; 2; 3]%Z).
Proof.
  split; [discriminate|]. split; [lia|].
  apply partition_voronoi_partitions; [discriminate|lia].
Defined.

(** C5. [partition_voronoi] raises exactly when [n_seeds <= 0], and then it
    raises the invalid-argument error at once, the random source untouched;
    for every [n_seeds >= 1] and any values it returns [n_seeds] clusters. *)
Theorem partition_voronoi_raises_iff
    (random : nat -> Qc) (values : list Qc) (n_seeds lloyd_iters : Z)
    (init_method : string) (g : nat) :
  (forall e,
      fst (partition_voronoi random values n_seeds lloyd_iters init_method g)
      = Raise e
      <-> (n_seeds <= 0)%Z /\ e = ValueError "n_seeds must be >= 1")
  /\ ((n_seeds <= 0)%Z ->
      partition_voronoi random values n_seeds lloyd_iters init_method g
      = (Raise (ValueError "n_seeds must be >= 1"), g))
  /\ ((1 <= n_seeds)%Z ->
      exists clusters seeds g',
        partition_voronoi random values n_seeds lloyd_iters init_method g
        = (Ok (clusters, seeds), g')
        /\ List.length clusters = Z.to_nat n_seeds).
Proof.
  assert (Hbad : (n_seeds <= 0)%Z ->
                 partition_voronoi random values n_seeds lloyd_iters init_method g
                 = (Raise (ValueError "n_seeds must be >= 1"), g)).
  { intros H. unfold partition_voronoi.
    destruct (Z.leb_spec n_seeds 0); [reflexivity|lia]. }
  split; [|split].
  - intros e. split.
    + intros He. destruct (Z.le_gt_cases n_seeds 0) as [H|H].
      * rewrite (Hbad H) in He. simpl in He. split; [assumption|congruence].
      * destruct (partition_voronoi_total random values n_seeds lloyd_iters
                    init_method g) as (c & s & g' & Hrun & _); [lia|].
        rewrite Hrun in He. discriminate.
    + intros [H ->]. rewrite (Hbad H). reflexivity.
  - exact Hbad.
  - apply partition_voronoi_total.
Qed.

(** C6. For [n_seeds >= 1], any iteration count and any initialisation
    method, an empty list of values gives [n_seeds] empty clusters and an
    empty seed sequence; nothing is drawn from the random source, so neither
    the initialisation nor the relaxation has run. *)
Theorem partition_voronoi_empty
    (random : nat -> Qc) (n_seeds lloyd_iters : Z) (init_method : string)
    (g : nat) :
  (1 <= n_seeds)%Z ->
  partition_voronoi random [] n_seeds lloyd_iters init_method g
  = (Ok (repeat [] (Z.to_nat n_seeds), []), g)
  /\ Forall (fun c => c = []) (repeat (@nil Qc) (Z.to_nat n_seeds))
  /\ List.length (repeat (@nil Qc) (Z.to_nat n_seeds)) = Z.to_nat n_seeds.
Proof.
  intros Hn. unfold partition_voronoi.
  destruct (Z.leb_spec n_seeds 0) as [H|_]; [lia|].
  split; [reflexivity|]. split; [|apply repeat_length].
  apply Forall_forall. intros c Hc. apply repeat_spec in Hc. assumption.
Qed.

Lemma partition_voronoi_empty_witness :
  (1 <= 3)%Z /\
  partition_voronoi always_half [] 3 10 "quantile" 7
  = (Ok (repeat [] (Z.to_nat 3), []), 7).
Proof.
  split; [lia|].
  apply (partition_voronoi_empty always_half 3 10 "quantile" 7). lia.
Defined.





(** From the quantile seeds of 0 .. 9 the loop stops after its third pass:
    ten iterations and three give the same seeds. *)
Example relaxation_stops_early :
  let arr := numbers [0; 1; 2; 3; 4; 5; 6; 7; 8; 9]%Z in
  lloyd_iterations 10 arr (quantile_seeds arr 3) 3
  = lloyd_iterations 3 arr (quantile_seeds arr 3) 3
  /\ lloyd_iterations 2 arr (quantile_seeds arr 3) 3
     <> lloyd_iterations 1 arr (quantile_seeds arr 3) 3.
Proof.
  split.
  - vm_compute. reflexivity.
  - vm_compute. intros H. injection H as H _. discriminate H.
Qed.

(** C9. Every initialisation method other than "quantile" is the random
    one: with the same random source the function returns what it returns
    for "random", error or not. *)
Theorem other_init_method_is_random
    (random : nat -> Qc) (values : list Qc) (n_seeds lloyd_iters : Z)
    (init_method : string) (g : nat) :
  init_method <> "quantile"%string ->
  partition_voronoi random values n_seeds lloyd_iters init_method g
  = partition_voronoi random values n_seeds lloyd_iters "random" g.
Proof.
  intros Hm. unfold partition_voronoi.
  apply String.eqb_neq in Hm. rewrite Hm.
  replace (String.eqb "random" "quantile") with false by reflexivity.
  reflexivity.
Qed.

Lemma other_init_method_is_random_witness :
  "kmeans++"%string <> "quantile"%string /\
  partition_voronoi always_half (numbers [3; 1; 2]%Z) 2 5 "kmeans++" 0
  = partition_voronoi always_half (numbers [3; 1; 2]%Z) 2 5 "random" 0.
Proof.
  split; [discriminate|].
  apply other_init_method_is_random. discriminate.
Defined.

(** C10. A negative iteration count raises nothing: the loop runs no pass,
    and the result is the result for the count zero.  This holds for the
    command-line version and for the second application. *)
Theorem negative_lloyd_iters_is_zero
    (random : nat -> Qc) (values : list Qc) (n_seeds lloyd_iters : Z)
    (init_method : string) (g : nat) :
  (lloyd_iters < 0)%Z -> (1 <= n_seeds)%Z ->
  (partition_voronoi random values n_seeds lloyd_iters init_method g
   = partition_voronoi random values n_seeds 0 init_method g
   /\ exists clusters seeds g',
        partition_voronoi random values n_seeds lloyd_iters init_method g
        = (Ok (clusters, seeds), g'))
  /\ (partition_voronoi_2 random values n_seeds lloyd_iters init_method g
      = partition_voronoi_2 random values n_seeds 0 init_method g
      /\ exists clusters seeds g',
           partition_voronoi_2 random values n_seeds lloyd_iters init_method g
           = (Ok (clusters, seeds), g')).
Proof.
  intros Hneg Hn.
  assert (Hzero : forall seeds0,
             relax_and_split values values seeds0 (Z.to_nat n_seeds) lloyd_iters
             = relax_and_split values values seeds0 (Z.to_nat n_seeds) 0).
  { intros seeds0. unfold relax_and_split.
    replace (Z.to_nat lloyd_iters) with (Z.to_nat 0) by lia. reflexivity. }
  split; split.
  - unfold partition_voronoi.
    destruct (n_seeds <=? 0)%Z; [reflexivity|].
    destruct (Nat.eqb (List.length values) 0); [reflexivity|].
    destruct (if String.eqb init_method "quantile" then _ else _) as [[seeds0|e] g'];
      cbn [bind]; [rewrite Hzero|]; reflexivity.
  - destruct (partition_voronoi_total random values n_seeds lloyd_iters
                init_method g Hn) as (c & s & g' & Hrun & _).
    eauto.
  - unfold partition_voronoi_2.
    destruct (n_seeds <=? 0)%Z; [reflexivity|].
    destruct (Nat.eqb (List.length values) 0); [reflexivity|].
    destruct (if String.eqb init_method "quantile" then _ else _) as [[seeds0|e] g'];
      cbn [bind]; [rewrite Hzero|]; reflexivity.
  - destruct (partition_voronoi_2_total random values n_seeds lloyd_iters
                init_method g Hn) as (c & s & g' & Hrun & _).
    eauto.
Qed.

Lemma negative_lloyd_iters_is_zero_witness :
  (-3 < 0)%Z /\ (1 <= 2)%Z /\
  partition_voronoi always_half (numbers [3; 1; 2]%Z) 2 (-3) "quantile" 0
  = partition_voronoi always_half (numbers [3; 1; 2]%Z) 2 0 "quantile" 0.
Proof.
  split; [lia|]. split; [lia|].
  apply (negative_lloyd_iters_is_zero always_half (numbers [3; 1; 2]%Z) 2 (-3)
           "quantile" 0); lia.
Defined.

(** * Further properties of the partitioner *)

(** ** What a returned result looks like *)

Section PartitionerResult.

Variable random : nat -> Qc.

(** A returned result comes from the short circuit on empty values or is a
    Voronoi partition around [n_seeds] seeds. *)
Lemma partition_voronoi_inv values n_seeds lloyd_iters init_method g
    clusters seeds g' :
  partition_voronoi random values n_seeds lloyd_iters init_method g
  = (Ok (clusters, seeds), g') ->
  (1 <= n_seeds)%Z
  /\ ((values = [] /\ clusters = repeat [] (Z.to_nat n_seeds) /\ seeds = [])
      \/ (values <> []
          /\ voronoi_partition values (Z.to_nat n_seeds) clusters seeds
          /\ Permutation (concat clusters) values)).
Proof.
  intros Hrun. destruct (Z.le_gt_cases n_seeds 0) as [Hn|Hn].
  - unfold partition_voronoi in Hrun.
    destruct (Z.leb_spec n_seeds 0); [discriminate|lia].
  - split; [lia|]. destruct values as [|v values].
    + left. unfold partition_voronoi in Hrun.
      destruct (Z.leb_spec n_seeds 0); [lia|]. simpl in Hrun.
      injection Hrun as <- <- <-. auto.
    + right. split; [discriminate|].
      destruct (partition_voronoi_spec random (v :: values) n_seeds lloyd_iters
                  init_method g) as (c & s & g1 & Hrun' & Hpart & Hperm);
        [lia|discriminate|].
      rewrite Hrun in Hrun'. injection Hrun' as <- <- <-. auto.
Qed.

Lemma partition_voronoi_2_inv values n_seeds lloyd_iters init_method g
    clusters seeds g' :
  partition_voronoi_2 random values n_seeds lloyd_iters init_method g
  = (Ok (clusters, seeds), g') ->
  (1 <= n_seeds)%Z
  /\ ((values = [] /\ clusters = repeat [] (Z.to_nat n_seeds) /\ seeds = [])
      \/ (values <> []
          /\ voronoi_partition values (Z.to_nat n_seeds) clusters seeds
          /\ Permutation (concat clusters) values)).
Proof.
  intros Hrun. destruct (Z.le_gt_cases n_seeds 0) as [Hn|Hn].
  - unfold partition_voronoi_2 in Hrun.
    destruct (Z.leb_spec n_seeds 0); [discriminate|lia].
  - split; [lia|]. destruct values as [|v values].
    + left. unfold partition_voronoi_2 in Hrun.
      destruct (Z.leb_spec n_seeds 0); [lia|]. simpl in Hrun.
      injection Hrun as <- <- <-. auto.
    + right. split; [discriminate|].
      destruct (partition_voronoi_2_spec random (v :: values) n_seeds lloyd_iters
                  init_method g) as (c & s & g1 & Hrun' & Hpart & Hperm);
        [lia|discriminate|].
      rewrite Hrun in Hrun'. injection Hrun' as <- <- <-. auto.
Qed.

End PartitionerResult.

(** A value is in [members arr idx k] exactly when it stands in [arr] at a
    position that [idx] sends to [k]. *)
Lemma members_In arr : forall idx k v,
  In v (members arr idx k) <->
  exists p, nth_error arr p = Some v /\ nth_error idx p = Some k.
Proof.
  induction arr as [|x arr IH]; intros idx k v.
  - rewrite members_nil_l. split; [intros []|].
    intros (p & Hp & _). destruct p; discriminate.
  - destruct idx as [|i idx].
    + rewrite members_nil_r. split; [intros []|].
      intros (p & _ & Hp). destruct p; discriminate.
    + rewrite members_cons. split.
      * destruct (Nat.eqb_spec i k) as [->|Hne].
        -- intros [<-|Hin]; [exists 0; auto|].
           apply IH in Hin as (p & Hv & Hi). exists (S p). auto.
        -- intros Hin. apply IH in Hin as (p & Hv & Hi). exists (S p). auto.
      * intros (p & Hv & Hi). destruct p as [|p]; simpl in Hv, Hi.
        -- injection Hv as <-. injection Hi as <-.
           rewrite Nat.eqb_refl. now left.
        -- assert (Hin : In v (members arr idx k)) by (apply IH; eauto).
           destruct (Nat.eqb i k); [now right|assumption].
Qed.

Lemma count_nonempty_le (cl : list (list Qc)) :
  List.length (filter (fun c => negb (Nat.eqb (List.length c) 0)) cl)
  <= List.length (concat cl).
Proof.
  induction cl as [|c cl IH]; [simpl; lia|].
  cbn [filter concat]. rewrite length_app.
  destruct c as [|x c]; cbn [List.length Nat.eqb negb]; lia.
Qed.

Lemma count_empty_ge (cl : list (list Qc)) :
  List.length cl - List.length (concat cl)
  <= List.length (filter (fun c => Nat.eqb (List.length c) 0) cl).
Proof.
  induction cl as [|c cl IH]; [simpl; lia|].
  cbn [filter concat]. rewrite length_app.
  destruct c as [|x c]; cbn [List.length Nat.eqb]; lia.
Qed.

Section PartitionerProperties.

Variable random : nat -> Qc.

Lemma uniform_seeds_state lo hi n g :
  snd (uniform_seeds random lo hi n g) = g + n.
Proof.
  revert g. induction n as [|n IH]; intros g; simpl; [lia|].
  specialize (IH (S g)).
  destruct (uniform_seeds random lo hi n (S g)). simpl in *. lia.
Qed.

(** X2. When two returned seeds stand at the same position, the cluster of
    the one with the higher index is empty. *)
Theorem duplicate_seed_has_empty_cluster
    (values : list Qc) (n_seeds lloyd_iters : Z) (init_method : string)
    (g g' : nat) (clusters : list (list Qc)) (seeds : list Qc) :
  partition_voronoi random values n_seeds lloyd_iters init_method g
  = (Ok (clusters, seeds), g') ->
  forall i j s,
    i < j -> nth_error seeds i = Some s -> nth_error seeds j = Some s ->
    nth_error clusters j = Some [].
Proof.
  intros Hrun i j s Hij Hi Hj.
  destruct (partition_voronoi_inv random _ _ _ _ _ _ _ _ Hrun)
    as (_ & [(_ & _ & ->)|(_ & (Hs & Hcl & idx & Hidx & Hnth) & _)]).
  - destruct i; discriminate.
  - assert (Hjn : j < Z.to_nat n_seeds).
    { rewrite <- Hs. apply nth_error_Some. congruence. }
    rewrite (Hnth j Hjn). f_equal.
    destruct (members values idx j) as [|v m] eqn:Em; [reflexivity|].
    exfalso.
    assert (Hv : In v (members values idx j)) by (rewrite Em; now left).
    apply members_In in Hv as (p & Hp & Hip).
    destruct (Forall2_nth_error _ _ _ (nearest_Forall2 _ _ _ Hidx) p v j Hp Hip)
      as (sj & Hsj & _ & Hlt).
    assert (sj = s) by congruence. subst sj.
    specialize (Hlt i s Hij Hi).
    apply (Qclt_not_le _ _ Hlt). apply Qcle_refl.
Qed.

(** X3. At most [len(values)] of the returned clusters are non-empty, so at
    least [n_seeds - len(values)] of them are empty. *)
Theorem nonempty_clusters_bounded
    (values : list Qc) (n_seeds lloyd_iters : Z) (init_method : string)
    (g g' : nat) (clusters : list (list Qc)) (seeds : list Qc) :
  partition_voronoi random values n_seeds lloyd_iters init_method g
  = (Ok (clusters, seeds), g') ->
  List.length (filter (fun c => negb (Nat.eqb (List.length c) 0)) clusters)
  <= List.length values
  /\ Z.to_nat n_seeds - List.length values
     <= List.length (filter (fun c => Nat.eqb (List.length c) 0) clusters).
Proof.
  intros Hrun.
  assert (H : List.length clusters = Z.to_nat n_seeds
              /\ List.length (concat clusters) = List.length values).
  { destruct (partition_voronoi_inv random _ _ _ _ _ _ _ _ Hrun)
      as (_ & [(-> & -> & _)|(_ & (_ & Hcl & _) & Hperm)]).
    - rewrite repeat_length, concat_repeat_nil. auto.
    - split; [assumption|]. now apply Permutation_length. }
  destruct H as [Hcl Hlen]. rewrite <- Hlen, <- Hcl.
  split; [apply count_nonempty_le|apply count_empty_ge].
Qed.

(** X4. The returned seed sequence has [n_seeds] entries when the input is
    not empty and none when it is. *)
Theorem returned_seed_count
    (values : list Qc) (n_seeds lloyd_iters : Z) (init_method : string)
    (g g' : nat) (clusters : list (list Qc)) (seeds : list Qc) :
  partition_voronoi random values n_seeds lloyd_iters init_method g
  = (Ok (clusters, seeds), g') ->
  List.length seeds
  = if Nat.eqb (List.length values) 0 then 0 else Z.to_nat n_seeds.
Proof.
  intros Hrun.
  destruct (partition_voronoi_inv random _ _ _ _ _ _ _ _ Hrun)
    as (_ & [(-> & _ & ->)|(Hv & (Hs & _) & _)]).
  - reflexivity.
  - destruct values; [congruence|]. exact Hs.
Qed.

(** X5. The function draws from the random source only for a valid seed
    count, a non-empty input and a method other than "quantile", and then it
    draws exactly [n_seeds] times. *)
Theorem random_draws_consumed
    (values : list Qc) (n_seeds lloyd_iters : Z) (init_method : string)
    (g : nat) :
  snd (partition_voronoi random values n_seeds lloyd_iters init_method g)
  = if ((n_seeds <=? 0)%Z || Nat.eqb (List.length values) 0
        || String.eqb init_method "quantile")%bool
    then g else g + Z.to_nat n_seeds.
Proof.
  unfold partition_voronoi.
  destruct (n_seeds <=? 0)%Z; [reflexivity|].
  destruct values as [|v values]; [reflexivity|].
  cbn [List.length Nat.eqb orb].
  destruct (String.eqb init_method "quantile"); [reflexivity|].
  unfold random_seeds.
  destruct (amin_total (v :: values)) as [lo ->]; [discriminate|].
  destruct (amax_total (v :: values)) as [hi ->]; [discriminate|].
  pose proof (uniform_seeds_state lo hi (Z.to_nat n_seeds) g) as Hst.
  destruct (uniform_seeds random lo hi (Z.to_nat n_seeds) g). exact Hst.
Qed.

End PartitionerProperties.

(** ** Arithmetic on canonical rationals, through plain rationals *)

Lemma this_plus (x y : Qc) : (this (x + y)%Qc == this x + this y)%Q.
Proof. unfold Qcplus, Q2Qc. cbn [this]. apply Qred_correct. Qed.

Lemma this_of_Z (z : Z) : (this (of_Z z) == inject_Z z)%Q.
Proof. unfold of_Z, Q2Qc. cbn [this]. apply Qred_correct. Qed.

(** * The applications: reading the numbers *)

(** ** Splitting *)

Lemma pieces_not_nil f s : pieces f s <> [].
Proof.
  destruct s as [|c r]; simpl; [discriminate|].
  destruct (f c); [discriminate|]. destruct (pieces f r); discriminate.
Qed.

(** No piece holds a separator. *)
Lemma pieces_clean f s : Forall (Forall (fun c => f c = false)) (pieces f s).
Proof.
  induction s as [|c r IH]; simpl.
  - repeat constructor.
  - destruct (f c) eqn:E.
    + constructor; [constructor|assumption].
    + destruct (pieces f r) as [|p ps]; [repeat constructor; assumption|].
      inversion IH; subst. constructor; [constructor|]; assumption.
Qed.

Lemma pieces_token f t :
  Forall (fun c => f c = false) t -> pieces f t = [t].
Proof.
  induction 1 as [|c t Hc _ IH]; simpl; [reflexivity|].
  now rewrite Hc, IH.
Qed.

Lemma pieces_token_sep f t c rest :
  Forall (fun c => f c = false) t -> f c = true ->
  pieces f (t ++ c :: rest) = t :: pieces f rest.
Proof.
  intros Ht Hc. induction Ht as [|x t Hx _ IH]; simpl.
  - now rewrite Hc.
  - now rewrite Hx, IH.
Qed.

Lemma pieces_map f g s :
  pieces f (map g s) = map (map g) (pieces (fun c => f (g c)) s).
Proof.
  induction s as [|c r IH]; simpl; [reflexivity|].
  destruct (f (g c)); rewrite IH; [reflexivity|].
  destruct (pieces (fun c => f (g c)) r); reflexivity.
Qed.

Lemma map_id_on {A} (g : A -> A) l :
  Forall (fun x => g x = x) l -> map g l = l.
Proof. induction 1; simpl; congruence. Qed.

Lemma filter_nonempty_map g (ps : list text) :
  filter nonempty (map (map g) ps) = map (map g) (filter nonempty ps).
Proof.
  induction ps as [|p ps IH]; simpl; [reflexivity|].
  destruct p; simpl; now rewrite IH.
Qed.

(** Replacing separators by one of them and then splitting is splitting at
    all of them. *)
Lemma pieces_replaced (f0 f : N -> bool) (g : N -> N) s :
  (forall c, f0 (g c) = f c) ->
  (forall c, f c = false -> g c = c) ->
  pieces f0 (map g s) = pieces f s.
Proof.
  intros Hsep Hid. rewrite pieces_map.
  assert (Heq : pieces (fun c => f0 (g c)) s = pieces f s).
  { clear Hid. induction s as [|c r IH]; simpl; [reflexivity|].
    now rewrite Hsep, IH. }
  rewrite Heq. apply map_id_on.
  eapply Forall_impl; [|apply pieces_clean].
  intros p Hp. apply map_id_on.
  eapply Forall_impl; [|exact Hp]. intros c Hc. now apply Hid.
Qed.

Lemma lstrip_id s :
  match s with [] => True | c :: _ => isspace c = false end -> lstrip s = s.
Proof. destruct s as [|c r]; simpl; [reflexivity|]. now intros ->. Qed.

(** A text that neither starts nor ends with whitespace is its own strip. *)
Lemma strip_id s :
  match s with [] => True | c :: _ => isspace c = false end ->
  match rev s with [] => True | c :: _ => isspace c = false end ->
  strip s = s.
Proof.
  intros H1 H2. unfold strip, rstrip.
  rewrite (lstrip_id s H1), (lstrip_id (rev s) H2). apply rev_involutive.
Qed.

(** ** The loop over the tokens *)

(** The loop returns exactly when every token gives values, and then it
    returns them all, in order. *)
Lemma collect_Values step ts : forall acc vals,
  collect step ts acc = Values vals <->
  exists vss,
    Forall2 (fun t vs => step t = Values vs) ts vss /\ vals = acc ++ concat vss.
Proof.
  induction ts as [|t ts IH]; intros acc vals; simpl.
  - split.
    + intros [= <-]. exists []. split; [constructor|]. simpl. now rewrite app_nil_r.
    + intros (vss & Hall & ->). inversion Hall. simpl. now rewrite app_nil_r.
  - split.
    + destruct (step t) as [vs| |] eqn:Et; try discriminate.
      intros H. apply IH in H as (vss & Hall & ->).
      exists (vs :: vss). split; [now constructor|].
      simpl. now rewrite app_assoc.
    + intros (vss & Hall & ->).
      inversion Hall as [|t' vs ts' vss' Hvs Hrest]; subst.
      rewrite Hvs. apply IH. exists vss'. split; [assumption|].
      simpl. now rewrite app_assoc.
Qed.

(** The loop raises for a token exactly when that token is the first one
    that gives no values. *)
Lemma collect_BadToken step ts : forall acc p,
  collect step ts acc = BadToken p ->
  exists pre t post,
    ts = pre ++ t :: post
    /\ Forall (fun q => exists vs, step q = Values vs) pre
    /\ step t = BadToken p.
Proof.
  induction ts as [|t ts IH]; intros acc p; simpl; [discriminate|].
  destruct (step t) as [vs|q|] eqn:Et; try discriminate.
  - intros H. apply IH in H as (pre & t' & post & -> & Hpre & Ht').
    exists (t :: pre), t', post. split; [reflexivity|].
    split; [constructor; eauto|assumption].
  - intros [= ->]. exists [], t, ts. auto.
Qed.

Lemma collect_UnpackError step ts : forall acc,
  collect step ts acc = UnpackError ->
  exists t, In t ts /\ step t = UnpackError.
Proof.
  induction ts as [|t ts IH]; intros acc; simpl; [discriminate|].
  destruct (step t) as [vs|q|] eqn:Et; try discriminate.
  - intros H. apply IH in H as (t' & Hin & Ht'). eauto.
  - intros _. eauto.
Qed.

(** ** The first application *)

Lemma replaced_1 raw :
  fold_left (fun r ch => replace_char ch 32 r) [44; 10; 9; 59]%N raw
  = map (fun c => if separator_1 c then 32%N else c) raw.
Proof.
  cbn [fold_left]. unfold replace_char. rewrite !map_map.
  apply map_ext. intros c. unfold separator_1.
  destruct (N.eqb_spec c 44) as [->|H44]; [reflexivity|].
  destruct (N.eqb_spec c 10) as [->|H10]; [reflexivity|].
  destruct (N.eqb_spec c 9) as [->|H9]; [reflexivity|].
  destruct (N.eqb_spec c 59) as [->|H59]; [reflexivity|].
  cbn [orb]. destruct (N.eqb_spec c 32) as [->|H32]; reflexivity.
Qed.

Lemma filter_nonempty_spec (ps : list text) :
  Forall (fun p => p <> []) (filter nonempty ps).
Proof.
  apply Forall_forall. intros p Hp. apply filter_In in Hp as [_ Hp].
  destruct p; [discriminate|discriminate].
Qed.

Lemma app1_parts_runs (raw : text) :
  App1.parts raw = filter nonempty (pieces separator_1 raw).
Proof.
  unfold App1.parts, split_on. rewrite replaced_1. f_equal.
  apply pieces_replaced.
  - intros c. destruct (separator_1 c) eqn:E; [reflexivity|].
    unfold separator_1 in E. rewrite !orb_false_iff in E. apply E.
  - intros c ->. reflexivity.
Qed.

(** X11. The tokens of the first application are the maximal runs of
    characters other than comma, semicolon, newline, tab and space: no token
    is empty and none holds a separator. *)
Theorem app1_tokens_are_runs (raw : text) :
  App1.parts raw = filter nonempty (pieces separator_1 raw)
  /\ Forall (fun p => p <> [] /\ Forall (fun c => separator_1 c = false) p)
       (App1.parts raw).
Proof.
  split; [apply app1_parts_runs|]. rewrite app1_parts_runs.
  apply Forall_forall. intros p Hp. apply filter_In in Hp as [Hin Hne].
  split; [destruct p; [discriminate|discriminate]|].
  pose proof (pieces_clean separator_1 raw) as Hall.
  rewrite Forall_forall in Hall. auto.
Qed.

Lemma app1_parse_values_collect float content :
  App1.parse_values float content
  = collect (App1.token_value float) (App1.parts (strip content)) [].
Proof.
  unfold App1.parse_values. destruct (strip content) as [|c r]; reflexivity.
Qed.

(** X12. [parse_values] of the first application returns one number per
    token, in order, when [float] reads every token; otherwise it raises for
    the first token that [float] rejects and returns nothing. *)
Theorem app1_parse_values_all_or_nothing (float : text -> option Qc) (content : text) :
  match App1.parse_values float content with
  | Values vals =>
      Forall2 (fun p x => float p = Some x) (App1.parts (strip content)) vals
  | BadToken p =>
      exists pre post,
        App1.parts (strip content) = pre ++ p :: post
        /\ Forall (fun q => float q <> None) pre
        /\ float p = None
  | UnpackError => False
  end.
Proof.
  rewrite app1_parse_values_collect.
  destruct (collect _ _ _) as [vals|p|] eqn:E.
  - apply collect_Values in E as (vss & Hall & ->). simpl.
    induction Hall as [|t vs ts vss Hvs _ IH]; [constructor|].
    unfold App1.token_value in Hvs.
    destruct (float t) as [x|] eqn:Ef; [|discriminate].
    injection Hvs as <-. simpl. constructor; assumption.
  - apply collect_BadToken in E as (pre & t & post & Hts & Hpre & Ht).
    unfold App1.token_value in Ht.
    destruct (float t) as [x|] eqn:Ef; [discriminate|]. injection Ht as <-.
    exists pre, post. split; [assumption|]. split; [|assumption].
    eapply Forall_impl; [|exact Hpre]. intros q (vs & Hq).
    unfold App1.token_value in Hq. destruct (float q); [discriminate|discriminate].
  - apply collect_UnpackError in E as (t & _ & Ht).
    unfold App1.token_value in Ht. destruct (float t); discriminate.
Qed.

(** ** Joining and reading back *)

Lemma pieces_skip f (sep rest : text) :
  Forall (fun c => f c = true) sep ->
  filter nonempty (pieces f (sep ++ rest)) = filter nonempty (pieces f rest).
Proof.
  induction 1 as [|c sep Hc _ IH]; [reflexivity|].
  cbn [app pieces]. rewrite Hc. cbn [filter nonempty]. exact IH.
Qed.

Lemma pieces_token_seps f (t sep rest : text) :
  t <> [] -> Forall (fun c => f c = false) t ->
  sep <> [] -> Forall (fun c => f c = true) sep ->
  filter nonempty (pieces f (t ++ sep ++ rest))
  = t :: filter nonempty (pieces f rest).
Proof.
  intros Ht Hclean Hsep Hall. destruct sep as [|c sep]; [congruence|].
  inversion Hall as [|? ? Hc Hrest]; subst.
  change (t ++ (c :: sep) ++ rest) with (t ++ c :: (sep ++ rest)).
  rewrite pieces_token_sep by assumption. cbn [filter].
  destruct t; [congruence|]. cbn [nonempty]. f_equal.
  now apply pieces_skip.
Qed.

(** The tokens of joined tokens are the tokens. *)
Lemma pieces_join_text f (sep : text) (ts : list text) :
  sep <> [] -> Forall (fun c => f c = true) sep ->
  Forall (fun t => t <> [] /\ Forall (fun c => f c = false) t) ts ->
  filter nonempty (pieces f (join_text sep ts)) = ts.
Proof.
  intros Hsep Hall Hts. induction Hts as [|t ts [Ht Hclean] Hrest IH]; [reflexivity|].
  destruct ts as [|t' ts'].
  - cbn [join_text]. rewrite pieces_token by assumption.
    destruct t; [congruence|reflexivity].
  - change (join_text sep (t :: t' :: ts'))
      with (t ++ sep ++ join_text sep (t' :: ts')).
    rewrite pieces_token_seps by assumption. now rewrite IH.
Qed.

Lemma last_cons {A} (l : list A) : forall a d, last (a :: l) d = last l a.
Proof.
  induction l as [|u l IH]; intros a d; [reflexivity|].
  change (last (a :: u :: l) d) with (last (u :: l) d).
  now rewrite !IH.
Qed.

Lemma last_In {A} (l : list A) : forall a, In (last l a) (a :: l).
Proof.
  induction l as [|u l IH]; intros a; [now left|].
  right. rewrite last_cons. apply IH.
Qed.

Lemma join_text_starts (P : N -> Prop) (sep t : text) (ts : list text) :
  t <> [] -> Forall P t ->
  match join_text sep (t :: ts) with [] => True | x :: _ => P x end.
Proof.
  intros Hne Hall. destruct t as [|x r]; [congruence|].
  inversion Hall; subst. destruct ts; simpl; assumption.
Qed.

Lemma join_text_ends (P : N -> Prop) (sep : text) (ts : list text) :
  forall t : text,
    last ts t <> [] -> Forall P (last ts t) ->
    exists x r, rev (join_text sep (t :: ts)) = x :: r /\ P x.
Proof.
  induction ts as [|t' ts IH]; intros t Hne Hall.
  - simpl in *. destruct (rev t) as [|x r] eqn:E.
    + apply (f_equal (@rev N)) in E. rewrite rev_involutive in E. simpl in E.
      congruence.
    + exists x, r. split; [reflexivity|].
      rewrite Forall_forall in Hall. apply Hall, in_rev. rewrite E. now left.
  - change (join_text sep (t :: t' :: ts))
      with (t ++ sep ++ join_text sep (t' :: ts)).
    rewrite !rev_app_distr.
    rewrite last_cons in *. destruct (IH t' Hne Hall) as (x & r & -> & Hx).
    simpl. eauto.
Qed.

(** Joined tokens without whitespace are their own strip. *)
Lemma strip_join_text (sep : text) (ts : list text) :
  Forall (fun t => t <> [] /\ Forall (fun x => isspace x = false) t) ts ->
  strip (join_text sep ts) = join_text sep ts.
Proof.
  intros Hclean. destruct ts as [|t ts]; [reflexivity|].
  rewrite Forall_forall in Hclean.
  assert (H1 : match join_text sep (t :: ts) with
               | [] => True
               | x :: _ => isspace x = false
               end).
  { destruct (Hclean t (or_introl eq_refl)) as [Ht Hall].
    now apply join_text_starts. }
  assert (H2 : match rev (join_text sep (t :: ts)) with
               | [] => True
               | x :: _ => isspace x = false
               end).
  { destruct (Hclean _ (last_In ts t)) as [Ht Hall].
    destruct (join_text_ends (fun x => isspace x = false) sep ts t Ht Hall)
      as (x & r & E & Hx).
    rewrite E. exact Hx. }
  exact (strip_id _ H1 H2).
Qed.

(** A token of the first application: not empty, and free of separators and
    of whitespace. *)
Lemma app1_parse_joined float (sep : text) (ts : list text) (vals : list Qc) :
  sep <> [] -> Forall (fun c => separator_1 c = true) sep ->
  Forall (fun t => t <> []
                   /\ Forall (fun x => separator_1 x = false /\ isspace x = false) t)
    ts ->
  Forall2 (fun t x => float t = Some x) ts vals ->
  App1.parse_values float (join_text sep ts) = Values vals.
Proof.
  intros Hsep Hall Hclean Hfloat.
  rewrite app1_parse_values_collect, strip_join_text.
  - rewrite app1_parts_runs, pieces_join_text; try assumption.
    + apply collect_Values. exists (map (fun x => [x]) vals). split.
      * clear -Hfloat. induction Hfloat as [|t x ts vals Hx _ IH]; simpl;
          constructor; auto.
        unfold App1.token_value. now rewrite Hx.
      * simpl. clear. induction vals; simpl; congruence.
    + eapply Forall_impl; [|exact Hclean]. intros t [Ht Hc]. split; [assumption|].
      eapply Forall_impl; [|exact Hc]. intros x [Hx _]. exact Hx.
  - eapply Forall_impl; [|exact Hclean]. intros t [Ht Hc]. split; [assumption|].
    eapply Forall_impl; [|exact Hc]. intros x [_ Hx]. exact Hx.
Qed.

(** X13. Tokens that hold neither separators nor whitespace, written with
    any run of separators between them, are read back as the numbers of the
    tokens. *)
Theorem app1_parse_values_join
    (float : text -> option Qc) (sep : text) (ts : list text) (vals : list Qc) :
  sep <> [] -> Forall (fun c => separator_1 c = true) sep ->
  Forall (fun t => t <> []
                   /\ Forall (fun x => separator_1 x = false /\ isspace x = false) t)
    ts ->
  Forall2 (fun t x => float t = Some x) ts vals ->
  App1.parse_values float (join_text sep ts) = Values vals.
Proof. apply app1_parse_joined. Qed.

(** ** Writing the numbers *)

Lemma uint_text_digits d :
  Forall (fun ch => (48 <= ch <= 57)%N) (uint_text d).
Proof.
  induction d; simpl; constructor; try assumption; lia.
Qed.

Lemma uint_text_nonnil d : d <> Decimal.Nil -> uint_text d <> [].
Proof. destruct d; simpl; congruence. Qed.

(** [str(n)] is a minus sign or a digit followed by digits. *)
Lemma str_int_chars z :
  str_int z <> []
  /\ Forall (fun ch => ch = 45%N \/ (48 <= ch <= 57)%N) (str_int z).
Proof.
  assert (Hd : forall d, Forall (fun ch => ch = 45%N \/ (48 <= ch <= 57)%N)
                           (uint_text d)).
  { intros d. eapply Forall_impl; [|apply uint_text_digits]. intros; now right. }
  unfold str_int. destruct z as [|p|p]; cbn [Z.to_int].
  - split; [discriminate|]. simpl. constructor; [right; lia|constructor].
  - split; [|apply Hd].
    apply uint_text_nonnil, DecimalPos.Unsigned.to_uint_nonnil.
  - split; [discriminate|]. constructor; [now left|apply Hd].
Qed.

Lemma digit_or_minus_clean ch :
  ch = 45%N \/ (48 <= ch <= 57)%N ->
  separator_1 ch = false /\ isspace ch = false.
Proof.
  intros H. unfold separator_1, isspace.
  assert (Hne : forall k, (k < 45 \/ 57 < k)%N -> (ch =? k)%N = false).
  { intros k Hk. apply N.eqb_neq. lia. }
  rewrite !Hne by lia. split; [reflexivity|].
  assert (H13 : (ch <=? 13)%N = false) by (apply N.leb_gt; lia).
  assert (H32 : (ch <=? 32)%N = false) by (apply N.leb_gt; lia).
  assert (H8192 : (8192 <=? ch)%N = false) by (apply N.leb_gt; lia).
  rewrite H13, H32, H8192. rewrite !andb_false_r. reflexivity.
Qed.

(** X17. A number without a fractional part is written by the first
    application as a decimal integer: an optional minus sign and digits, no
    decimal point, and nothing that [parse_values] takes for a separator. *)
Theorem app1_format_num_integer (str_float : Qc -> text) (x : Qc) :
  is_integer x = true ->
  App1._format_num str_float x = str_int (int x)
  /\ App1._format_num str_float x <> []
  /\ Forall (fun ch => (ch = 45%N \/ (48 <= ch <= 57)%N)
                       /\ separator_1 ch = false /\ isspace ch = false)
       (App1._format_num str_float x).
Proof.
  intros Hx. unfold App1._format_num. rewrite Hx.
  destruct (str_int_chars (int x)) as [Hne Hall].
  split; [reflexivity|]. split; [assumption|].
  eapply Forall_impl; [|exact Hall]. intros ch Hch.
  split; [assumption|]. now apply digit_or_minus_clean.
Qed.

(** X18. The items of a cluster line of the first application, put back into
    the input box, are read as the numbers of the cluster, when [float]
    reads what [str] writes for a float and [str] writes no separator. *)
Theorem app1_cluster_line_reads_back
    (float : text -> option Qc) (str_float : Qc -> text) (c : list Qc) :
  Forall (fun x => float (App1._format_num str_float x) = Some x) c ->
  Forall (fun x => is_integer x = false ->
                   str_float x <> []
                   /\ Forall (fun ch => separator_1 ch = false /\ isspace ch = false)
                        (str_float x)) c ->
  App1.parse_values float
    (join_text (str ", ") (map (App1._format_num str_float) c))
  = Values c.
Proof.
  intros Hfloat Hclean. apply app1_parse_joined.
  - discriminate.
  - repeat constructor.
  - apply Forall_forall. intros t Ht. apply in_map_iff in Ht as (x & <- & Hx).
    rewrite Forall_forall in Hclean. specialize (Hclean x Hx).
    unfold App1._format_num. destruct (is_integer x) eqn:E.
    + destruct (str_int_chars (int x)) as [Hne Hall]. split; [assumption|].
      eapply Forall_impl; [|exact Hall]. apply digit_or_minus_clean.
    + now apply Hclean.
  - clear Hclean. induction Hfloat; simpl; constructor; auto.
Qed.

(** ** The second application *)

Lemma app2_tokens_runs (raw : text) :
  split (replace_char 44 32 raw) = filter nonempty (pieces separator_2 raw).
Proof.
  unfold split, replace_char. f_equal. apply pieces_replaced.
  - intros c. unfold separator_2.
    destruct (N.eqb_spec c 44) as [->|H]; [reflexivity|].
    now rewrite orb_false_r.
  - intros c Hc. unfold separator_2 in Hc. apply orb_false_iff in Hc as [_ Hc].
    now rewrite Hc.
Qed.

(** A text with [k] separators has [k + 1] pieces. *)
Lemma split_on_length sep s :
  List.length (split_on sep s) = S (count_occ N.eq_dec s sep).
Proof.
  unfold split_on. induction s as [|c r IH]; [reflexivity|].
  cbn [pieces count_occ].
  destruct (N.eqb_spec c sep) as [->|Hne].
  - destruct (N.eq_dec sep sep); [|congruence]. simpl. now rewrite IH.
  - destruct (N.eq_dec c sep); [congruence|].
    destruct (pieces (fun c0 => (c0 =? sep)%N) r) as [|p ps]; [discriminate|].
    simpl in *. assumption.
Qed.

Lemma token_values_unpacks float buildable token :
  App2.token_values float buildable token <> UnpackError.
Proof.
  unfold App2.token_values.
  destruct (existsb _ token); cbn [andb]; [|destruct (float token); discriminate].
  destruct (Nat.eqb_spec (count_occ N.eq_dec token 45%N) 1) as [Hc|Hc];
    [|destruct (float token); discriminate].
  pose proof (split_on_length 45 token) as Hl. rewrite Hc in Hl.
  destruct (split_on 45 token) as [|a [|b [|x l]]]; try discriminate.
  destruct (App2.range_values float buildable a b); [discriminate|].
  destruct (float token); discriminate.
Qed.

Lemma token_values_bad float buildable token p :
  App2.token_values float buildable token = BadToken p ->
  p = token /\ float token = None.
Proof.
  unfold App2.token_values.
  assert (Hplain : match float token with
                   | Some x => Values [x]
                   | None => BadToken token
                   end = BadToken p -> p = token /\ float token = None).
  { destruct (float token); [discriminate|]. intros [= <-]. auto. }
  destruct (existsb _ token && _); [|exact Hplain].
  destruct (split_on 45 token) as [|a [|b [|x l]]]; try discriminate.
  destruct (App2.range_values float buildable a b); [discriminate|exact Hplain].
Qed.

(** X14. [parse_values] of the second application never fails to unpack the
    two ends of a range; when it raises, it raises for a token of the input
    that [float] rejects.  Its tokens are the maximal runs of characters
    other than whitespace and comma. *)
Theorem app2_parse_values_errors
    (float : text -> option Qc) (buildable : Z -> Z -> bool) (content : text) :
  let tokens := filter nonempty (pieces separator_2 (strip content)) in
  Forall (fun t => t <> [] /\ Forall (fun c => separator_2 c = false) t) tokens
  /\ match App2.parse_values float buildable content with
     | Values vals =>
         exists vss,
           Forall2 (fun t vs => App2.token_values float buildable t = Values vs)
             tokens vss
           /\ vals = concat vss
     | BadToken p => In p tokens /\ float p = None
     | UnpackError => False
     end.
Proof.
  intros tokens. split.
  - apply Forall_forall. intros p Hp. apply filter_In in Hp as [Hin Hne].
    split; [destruct p; [discriminate|discriminate]|].
    pose proof (pieces_clean separator_2 (strip content)) as Hall.
    rewrite Forall_forall in Hall. auto.
  - assert (Heq : App2.parse_values float buildable content
                  = collect (App2.token_values float buildable) tokens []).
    { unfold App2.parse_values, tokens. rewrite app2_tokens_runs.
      destruct (strip content); reflexivity. }
    rewrite Heq. destruct (collect _ _ _) as [vals|p|] eqn:E.
    + apply collect_Values in E as (vss & Hall & ->). eauto.
    + apply collect_BadToken in E as (pre & t & post & Hts & _ & Ht).
      apply token_values_bad in Ht as [-> Hf]. split; [|assumption].
      rewrite Hts. apply in_elt.
    + apply collect_UnpackError in E as (t & _ & Ht).
      now apply token_values_unpacks in Ht.
Qed.

Lemma of_Z_int x : is_integer x = true -> of_Z (int x) = x.
Proof.
  unfold is_integer, int. intros H. apply Pos.eqb_eq in H.
  apply Qc_is_canon. rewrite this_of_Z. rewrite H, Z.quot_1_r.
  destruct x as [[n d] Hc]. simpl in *. subst d. reflexivity.
Qed.

Lemma of_Z_plus_nat z i : of_Z (z + Z.of_nat i) = (of_Z z + of_nat i)%Qc.
Proof.
  apply Qc_is_canon. unfold of_nat.
  rewrite this_plus, !this_of_Z, inject_Z_plus. reflexivity.
Qed.

Lemma split_on_pair a b :
  Forall (fun c => c <> 45%N) a -> Forall (fun c => c <> 45%N) b ->
  split_on 45 (a ++ 45%N :: b) = [a; b]
  /\ count_occ N.eq_dec (a ++ 45%N :: b) 45%N = 1
  /\ existsb (fun c => (c =? 45)%N) (a ++ 45%N :: b) = true.
Proof.
  intros Ha Hb.
  assert (Hclean : forall l, Forall (fun c => c <> 45%N) l ->
                             Forall (fun c => (c =? 45)%N = false) l).
  { intros l Hl. eapply Forall_impl; [|exact Hl].
    intros c Hc. now apply N.eqb_neq. }
  assert (Hsplit : split_on 45 (a ++ 45%N :: b) = [a; b]).
  { unfold split_on. rewrite pieces_token_sep; [|now apply Hclean|reflexivity].
    f_equal. apply pieces_token. now apply Hclean. }
  split; [assumption|]. split.
  - pose proof (split_on_length 45 (a ++ 45%N :: b)) as Hl.
    rewrite Hsplit in Hl. simpl in Hl. lia.
  - apply existsb_exists. exists 45%N. split; [apply in_elt|reflexivity].
Qed.

(** X15. A token [a-b] whose ends [float] reads as integers, the first not
    above the second, stands for the consecutive integers from the first to
    the second, provided that Python can build the list of them; when it
    cannot, the token is read by [float] as a whole, like any other
    token. *)
Theorem app2_range_token
    (float : text -> option Qc) (buildable : Z -> Z -> bool) (a b : text)
    (x y : Qc) :
  Forall (fun c => c <> 45%N) a -> Forall (fun c => c <> 45%N) b ->
  float a = Some x -> float b = Some y ->
  is_integer x = true -> is_integer y = true -> (int x <= int y)%Z ->
  let values := map (fun i => (x + of_nat i)%Qc)
                  (seq 0 (Z.to_nat (int y - int x) + 1)) in
  last values x = y
  /\ App2.token_values float buildable (a ++ 45%N :: b)
     = if buildable (int x) (int y + 1)%Z then Values values
       else match float (a ++ 45%N :: b) with
            | Some v => Values [v]
            | None => BadToken (a ++ 45%N :: b)
            end.
Proof.
  intros Ha Hb Hx Hy Hix Hiy Hle values.
  destruct (split_on_pair a b Ha Hb) as (Hsplit & Hcount & Hex).
  set (k := Z.to_nat (int y - int x)) in *.
  assert (Hvals : map of_Z (range (int x) (int y + 1)) = values).
  { unfold range, values. rewrite map_map.
    replace (Z.to_nat (int y + 1 - int x)) with (k + 1) by (unfold k; lia).
    apply map_ext. intros i. rewrite of_Z_plus_nat. now rewrite of_Z_int. }
  split.
  - unfold values. rewrite Nat.add_1_r, seq_S, map_app. cbn [map].
    rewrite last_last.
    cbn [Nat.add]. rewrite <- (of_Z_int x Hix) at 1.
    rewrite <- of_Z_plus_nat. rewrite <- (of_Z_int y Hiy). f_equal.
    unfold k. lia.
  - unfold App2.token_values. rewrite Hex, Hcount, Hsplit. cbn [Nat.eqb andb].
    unfold App2.range_values. rewrite Hx, Hy, Hix, Hiy. cbn [andb].
    destruct (Z.leb_spec (int x) (int y)); [|lia].
    destruct (buildable (int x) (int y + 1)%Z); [now rewrite Hvals|reflexivity].
Qed.

(** X16. A token with one minus sign is read by [float] as a whole whenever
    [float] rejects the text before or the text after the sign, or reads
    them as numbers of which the first is above the second: a negative
    number is not a range, and neither is a descending pair. *)
Theorem app2_minus_token
    (float : text -> option Qc) (buildable : Z -> Z -> bool) (a b : text) :
  Forall (fun c => c <> 45%N) a -> Forall (fun c => c <> 45%N) b ->
  float a = None \/ float b = None
  \/ (exists x y, float a = Some x /\ float b = Some y /\ (int y < int x)%Z) ->
  App2.token_values float buildable (a ++ 45%N :: b)
  = match float (a ++ 45%N :: b) with
    | Some v => Values [v]
    | None => BadToken (a ++ 45%N :: b)
    end.
Proof.
  intros Ha Hb Hf.
  destruct (split_on_pair a b Ha Hb) as (Hsplit & Hcount & Hex).
  unfold App2.token_values. rewrite Hex, Hcount, Hsplit. cbn [Nat.eqb andb].
  assert (Hr : App2.range_values float buildable a b = None).
  { unfold App2.range_values.
    destruct Hf as [-> | [Hf | (x & y & -> & -> & Hlt)]]; [reflexivity| |].
    - rewrite Hf. destruct (float a); reflexivity.
    - destruct (is_integer x && is_integer y); [|reflexivity].
      destruct (Z.leb_spec (int x) (int y)); [lia|reflexivity]. }
  now rewrite Hr.
Qed.

(** * The applications: the handlers *)

Section App1Handlers.

Variable float : text -> option Qc.
Variable random : nat -> Qc.
Variable str_float : Qc -> text.
Variable array2string : list Qc -> text.

Lemma partition_voronoi_raise values n_seeds lloyd_iters init_method g e g' :
  partition_voronoi random values n_seeds lloyd_iters init_method g = (Raise e, g') ->
  (n_seeds <= 0)%Z /\ e = ValueError "n_seeds must be >= 1" /\ g' = g.
Proof.
  intros H. destruct (Z.le_gt_cases n_seeds 0) as [Hn|Hn].
  - unfold partition_voronoi in H.
    destruct (Z.leb_spec n_seeds 0); [|lia]. injection H as <- <-. auto.
  - destruct (partition_voronoi_total random values n_seeds lloyd_iters
                init_method g) as (c & s & g1 & Hrun & _); [lia|].
    rewrite Hrun in H. discriminate.
Qed.

Lemma partition_voronoi_invalid values n_seeds lloyd_iters init_method g :
  (n_seeds <= 0)%Z ->
  partition_voronoi random values n_seeds lloyd_iters init_method g
  = (Raise (ValueError "n_seeds must be >= 1"), g).
Proof.
  intros Hn. unfold partition_voronoi.
  destruct (Z.leb_spec n_seeds 0); [reflexivity|lia].
Qed.

(** X19. The handlers of the first application report unreadable numbers
    and unreadable parameters in a message box, but they let the error of
    [partition_voronoi] escape: each raises exactly when the numbers and the
    parameters are readable and the number of clusters is not positive. *)
Theorem app1_handlers_raise_iff
    (content : text) (n lloyd : option Z) (init : string)
    (confirm : bool) (saved : option text) (txt_result : text) (g : nat)
    (e : exn) :
  (fst (App1.on_preview float random str_float array2string
          content n lloyd init txt_result g) = Raise e
   <-> (exists vals n0 l0,
          App1.parse_values float content = Values vals
          /\ n = Some n0 /\ lloyd = Some l0 /\ (n0 <= 0)%Z)
       /\ e = ValueError "n_seeds must be >= 1")
  /\ (fst (App1.on_convert float random str_float array2string
             content n lloyd init confirm saved txt_result g) = Raise e
      <-> (exists vals n0 l0,
             App1.parse_values float content = Values vals
             /\ n = Some n0 /\ lloyd = Some l0 /\ (n0 <= 0)%Z)
          /\ e = ValueError "n_seeds must be >= 1").
Proof.
  unfold App1.on_preview, App1.on_convert.
  destruct (App1.parse_values float content) as [vals|p|] eqn:Ep.
  2, 3: split; split;
    [discriminate|intros [(v & n0 & l0 & H & _) _]; discriminate
    |discriminate|intros [(v & n0 & l0 & H & _) _]; discriminate].
  destruct n as [n0|].
  2: split; split;
    [discriminate|intros [(v & n1 & l0 & _ & H & _) _]; discriminate
    |discriminate|intros [(v & n1 & l0 & _ & H & _) _]; discriminate].
  destruct lloyd as [l0|].
  2: split; split;
    [discriminate|intros [(v & n1 & l1 & _ & _ & H & _) _]; discriminate
    |discriminate|intros [(v & n1 & l1 & _ & _ & H & _) _]; discriminate].
  destruct (partition_voronoi random vals n0 l0 init g) as [[[c s]|e'] g'] eqn:Er.
  - assert (Hpos : (0 < n0)%Z).
    { destruct (Z.le_gt_cases n0 0) as [Hn|Hn]; [|lia].
      rewrite (partition_voronoi_invalid vals n0 l0 init g Hn) in Er. discriminate. }
    split; split.
    + discriminate.
    + intros [(v & n1 & l1 & _ & [= <-] & _ & Hn) _]. lia.
    + destruct ((Z.of_nat (List.length vals) <? n0)%Z && negb confirm);
        [discriminate|]. destruct saved; discriminate.
    + intros [(v & n1 & l1 & _ & [= <-] & _ & Hn) _]. lia.
  - apply partition_voronoi_raise in Er as (Hn & -> & ->).
    assert (Hguard : ((Z.of_nat (List.length vals) <? n0)%Z && negb confirm) = false).
    { destruct (Z.ltb_spec (Z.of_nat (List.length vals)) n0); [lia|reflexivity]. }
    rewrite Hguard. cbn [fst]. split; split.
    + intros [= <-]. split; [|reflexivity]. exists vals, n0, l0. auto.
    + intros [_ ->]. reflexivity.
    + intros [= <-]. split; [|reflexivity]. exists vals, n0, l0. auto.
    + intros [_ ->]. reflexivity.
Qed.

(** X20. [on_convert] shows a result only when it has saved it: a file that
    it writes holds the text that it puts in the result box, and when it
    writes no file the result box keeps its text. *)
Theorem app1_on_convert_shows_what_it_saves
    (content : text) (n lloyd : option Z) (init : string)
    (confirm : bool) (saved : option text) (txt_result : text) (g g' : nat)
    (txt' : text) (effects : list App1.effect) :
  App1.on_convert float random str_float array2string
    content n lloyd init confirm saved txt_result g = (Ok (txt', effects), g') ->
  (forall path written,
      In (App1.WriteFile path written) effects ->
      saved = Some path /\ written = txt')
  /\ ((forall path written, ~ In (App1.WriteFile path written) effects) ->
      txt' = txt_result).
Proof.
  unfold App1.on_convert. intros H.
  assert (Hkeep : forall (d : App1.dialog) g1,
             (Ok (txt_result, [App1.Message d]), g1) = (Ok (txt', effects), g') ->
             (forall path written,
                 In (App1.WriteFile path written) effects ->
                 saved = Some path /\ written = txt')
             /\ ((forall path written, ~ In (App1.WriteFile path written) effects) ->
                 txt' = txt_result)).
  { intros d g1 E. injection E as <- <- _.
    split; [intros path w [Hw|[]]; discriminate|reflexivity]. }
  destruct (App1.parse_values float content) as [vals|p|].
  2, 3: exact (Hkeep _ _ H).
  destruct n as [n0|]; [|exact (Hkeep _ _ H)].
  destruct lloyd as [l0|]; [|exact (Hkeep _ _ H)].
  destruct ((Z.of_nat (List.length vals) <? n0)%Z && negb confirm).
  { injection H as <- <- _. split; [intros path w []|reflexivity]. }
  destruct (partition_voronoi random vals n0 l0 init g) as [[[c s]|e'] g1];
    [|discriminate].
  destruct saved as [path|]; [|exact (Hkeep _ _ H)].
  injection H as <- <- _. split.
  - intros p w [Hw|[Hw|[]]]; [|discriminate]. injection Hw as <- <-. auto.
  - intros Hno. exfalso. eapply Hno. left. reflexivity.
Qed.

End App1Handlers.

Lemma enumerate_rows {A B} (f : nat -> A -> B) (l : list (list A)) : forall a,
  let pairs := concat (map (fun p : nat * list A =>
                              let (i, c) := p in map (fun v => (i, v)) c)
                         (combine (seq a (List.length l)) l)) in
  concat (map (fun p : nat * list A => let (i, c) := p in map (f i) c)
            (combine (seq a (List.length l)) l))
  = map (fun p => f (fst p) (snd p)) pairs
  /\ map snd pairs = concat l
  /\ forall i v, In (i, v) pairs ->
       a <= i /\ exists c, nth_error l (i - a) = Some c /\ In v c.
Proof.
  induction l as [|c l IH]; intros a; cbn [List.length seq combine map concat].
  - split; [reflexivity|]. split; [reflexivity|]. intros i v [].
  - destruct (IH (S a)) as (Hrows & Hsnd & Hin). split; [|split].
    + rewrite map_app, Hrows, map_map. reflexivity.
    + rewrite map_app, Hsnd, map_map. cbn [snd]. now rewrite map_id.
    + intros i v Hiv. apply in_app_or in Hiv as [Hiv|Hiv].
      * apply in_map_iff in Hiv as (x & [= <- <-] & Hx).
        split; [lia|]. exists c. rewrite Nat.sub_diag. auto.
      * destruct (Hin i v Hiv) as (Hle & c' & Hc' & Hv).
        split; [lia|]. exists c'. split; [|assumption].
        replace (i - a) with (S (i - S a)) by lia. exact Hc'.
Qed.

Section App2Handlers.

Variable float : text -> option Qc.
Variable buildable : Z -> Z -> bool.
Variable random : nat -> Qc.

Lemma partition_voronoi_2_raise values n_seeds lloyd_iters init_method g e g' :
  partition_voronoi_2 random values n_seeds lloyd_iters init_method g
  = (Raise e, g') ->
  (n_seeds <= 0)%Z /\ e = ValueError "n_seeds must be >= 1" /\ g' = g.
Proof.
  intros H. destruct (Z.le_gt_cases n_seeds 0) as [Hn|Hn].
  - unfold partition_voronoi_2 in H.
    destruct (Z.leb_spec n_seeds 0); [|lia]. injection H as <- <-. auto.
  - destruct (partition_voronoi_2_total random values n_seeds lloyd_iters
                init_method g) as (c & s & g1 & Hrun & _); [lia|].
    rewrite Hrun in H. discriminate.
Qed.

(** The three ways in which [on_run] ends. *)
Lemma app2_on_run_cases content n_seeds lloyd_iters init_method
    (st : App2.app) g :
  (exists values clusters seeds g' n l,
      App2.parse_values float buildable content = Values values /\ values <> []
      /\ n_seeds = Some n /\ lloyd_iters = Some l
      /\ partition_voronoi_2 random values n l init_method g
         = (Ok (clusters, seeds), g')
      /\ App2.on_run float buildable random content n_seeds lloyd_iters
           init_method st g
         = (App2.Returns
              {| App2.last_result := Some (clusters, seeds);
                 App2.output_text :=
                   App2.out_lines init_method l n clusters seeds |}
              [], g'))
  \/ (exists d,
         App2.on_run float buildable random content n_seeds lloyd_iters
           init_method st g
         = (App2.Returns st [App2.Message d], g)
         /\ ((exists e, d = App2.InputError e
                        /\ App2.parse_values float buildable content = e)
             \/ (d = App2.EmptyInput
                 /\ App2.parse_values float buildable content = Values [])
             \/ (d = App2.PartitionError (ValueError "n_seeds must be >= 1")
                 /\ exists n, n_seeds = Some n /\ (n <= 0)%Z
                              /\ lloyd_iters <> None)))
  \/ (App2.on_run float buildable random content n_seeds lloyd_iters
         init_method st g
       = (App2.TclError, g)
       /\ (exists values,
             App2.parse_values float buildable content = Values values
             /\ values <> [])
       /\ (n_seeds = None \/ lloyd_iters = None)).
Proof.
  unfold App2.on_run.
  destruct (App2.parse_values float buildable content) as [values|p|] eqn:Ep;
    [|right; left; eexists; split; [reflexivity|left; eauto]
     |right; left; eexists; split; [reflexivity|left; eauto]].
  destruct values as [|v values]; cbn [List.length Nat.eqb].
  { right. left. eexists. split; [reflexivity|]. right. left. auto. }
  assert (Hv : exists values0,
             Values (v :: values) = Values values0 /\ values0 <> []).
  { exists (v :: values). split; [reflexivity|discriminate]. }
  destruct n_seeds as [n|]; [|right; right; auto].
  destruct lloyd_iters as [l|]; [|right; right; auto].
  destruct (partition_voronoi_2 random (v :: values) n l init_method g)
    as [[[c s]|e] g1] eqn:Er.
  - left. exists (v :: values), c, s, g1, n, l. repeat split; auto. discriminate.
  - apply partition_voronoi_2_raise in Er as (Hn & -> & ->).
    right. left. eexists. split; [reflexivity|]. right. right.
    split; [reflexivity|]. exists n. repeat split; [assumption|discriminate].
Qed.

(** X21. [on_run] of the second application ends in one of three ways.  It
    stores a result, for a non-empty input and a positive number of seeds,
    and shows nothing.  Or it shows exactly one message and leaves the
    state and the random source as they were; the only error of the
    partition that it ever shows is the one for a number of seeds that is
    not positive.  Or the exception of an entry that cannot be read as a
    number leaves the handler, with no message, no result and the random
    source as it was: this happens exactly when the input holds at least
    one value and one of the two entries cannot be read. *)
Theorem app2_on_run_outcome
    (content : text) (n_seeds lloyd_iters : option Z) (init_method : string)
    (st : App2.app) (o : App2.outcome) (g g' : nat) :
  App2.on_run float buildable random content n_seeds lloyd_iters init_method st g
  = (o, g') ->
  ((exists st' values clusters seeds n l,
       o = App2.Returns st' []
       /\ App2.parse_values float buildable content = Values values
       /\ values <> [] /\ n_seeds = Some n /\ lloyd_iters = Some l
       /\ (1 <= n)%Z
       /\ partition_voronoi_2 random values n l init_method g
          = (Ok (clusters, seeds), g')
       /\ App2.last_result st' = Some (clusters, seeds))
   \/ (g' = g
       /\ exists d,
            o = App2.Returns st [App2.Message d]
            /\ ((exists e, d = App2.InputError e
                           /\ App2.parse_values float buildable content = e)
                \/ (d = App2.EmptyInput
                    /\ App2.parse_values float buildable content = Values [])
                \/ (d = App2.PartitionError (ValueError "n_seeds must be >= 1")
                    /\ exists n, n_seeds = Some n /\ (n <= 0)%Z
                                 /\ lloyd_iters <> None)))
   \/ (g' = g /\ o = App2.TclError))
  /\ (o = App2.TclError
      <-> (exists values,
             App2.parse_values float buildable content = Values values
             /\ values <> [])
          /\ (n_seeds = None \/ lloyd_iters = None)).
Proof.
  intros H.
  destruct (app2_on_run_cases content n_seeds lloyd_iters init_method st g)
    as [(values & clusters & seeds & g1 & n & l & Hp & Hne & Hn & Hl & Hpart & Hrun)
       |[(d & Hrun & Hd)|(Hrun & Hv & Hnone)]];
    rewrite Hrun in H; injection H as <- <-.
  - split.
    + left. eexists. exists values, clusters, seeds, n, l.
      destruct (partition_voronoi_2_inv random _ _ _ _ _ _ _ _ Hpart) as [Hpos _].
      repeat split; auto.
    + split; [discriminate|].
      intros [_ [Hnone|Hnone]]; congruence.
  - split.
    + right. left. split; [reflexivity|]. exists d. auto.
    + split; [discriminate|].
      intros [(values & Hp & Hne) Hnone].
      destruct Hd as [(e & _ & He)|[(_ & He)|(_ & n & Hn & _ & Hl)]].
      * unfold App2.on_run in Hrun. rewrite Hp in Hrun.
        destruct values as [|v values]; [congruence|].
        cbn [List.length Nat.eqb] in Hrun.
        destruct Hnone as [->| ->]; [discriminate|].
        destruct n_seeds; discriminate.
      * congruence.
      * destruct Hnone; congruence.
  - split; [right; right; auto|]. split; auto.
Qed.

(** X22. In every state that the handlers of the second application reach,
    a stored result has at least one seed, as many clusters as seeds and at
    least one value in its clusters, and the output box is empty or shows
    the stored result. *)
Theorem app2_state_invariant (st : App2.app) :
  App2.reachable float buildable random st ->
  match App2.last_result st with
  | None => App2.output_text st = []
  | Some (clusters, seeds) =>
      seeds <> []
      /\ List.length clusters = List.length seeds
      /\ concat clusters <> []
      /\ (App2.output_text st = []
          \/ exists init_method lloyd_iters n_seeds,
               App2.output_text st
               = App2.out_lines init_method lloyd_iters n_seeds clusters seeds)
  end.
Proof.
  induction 1 as [|content n_seeds lloyd_iters init_method st g Hst IH|st Hst IH].
  - reflexivity.
  - destruct (app2_on_run_cases content n_seeds lloyd_iters init_method st g)
      as [(values & clusters & seeds & g' & n & l & Hv & Hne & _ & _ & Hrun & ->)
         |[(d & -> & _)|(-> & _)]];
      cbn [fst App2.state_after App2.last_result App2.output_text];
      [|exact IH|exact IH].
    destruct (partition_voronoi_2_inv random _ _ _ _ _ _ _ _ Hrun)
      as (Hn & [(-> & _)|(_ & (Hs & Hc & _) & Hperm)]); [congruence|].
    split; [apply (nonempty_length _ _ Hs); lia|].
    split; [congruence|]. split.
    + intros E. rewrite E in Hperm. apply Permutation_nil in Hperm. congruence.
    + right. eauto.
  - cbn [App2.on_clear_output App2.last_result App2.output_text].
    destruct (App2.last_result st) as [[clusters seeds]|]; [|reflexivity].
    destruct IH as (H1 & H2 & H3 & _). auto.
Qed.

(** X23. After a run that stored a result, [on_save_csv] writes the header
    and then one row for every number that was read from the input box:
    the values of the rows are the input values rearranged, and every row
    carries, with its value, the index of the cluster that holds the
    value, an index below the number of seeds. *)
Theorem app2_csv_rows
    (content : text) (n_seeds lloyd_iters : option Z) (init_method : string)
    (st st' : App2.app) (g g' : nat) (values : list Qc) (path : text) :
  App2.parse_values float buildable content = Values values ->
  App2.on_run float buildable random content n_seeds lloyd_iters init_method st g
  = (App2.Returns st' [], g') ->
  path <> [] ->
  exists pairs clusters seeds n,
    App2.last_result st' = Some (clusters, seeds)
    /\ n_seeds = Some n
    /\ App2.on_save_csv st' path true
       = [App2.WriteFile path
            (App2.Header :: map (fun p => App2.Row (fst p) (snd p)) pairs);
          App2.Message (App2.Saved path)]
    /\ Permutation (map snd pairs) values
    /\ Forall (fun p => fst p < Z.to_nat n
                        /\ exists c, nth_error clusters (fst p) = Some c
                                     /\ In (snd p) c) pairs.
Proof.
  intros Hparse Hrun Hpath.
  destruct (app2_on_run_cases content n_seeds lloyd_iters init_method st g)
    as [(values' & clusters & seeds & g1 & n & l & Hv & Hne & Hn & Hl & Hpart & Hrun')
       |[(d & Hrun' & _)|(Hrun' & _)]];
    rewrite Hrun in Hrun'; [|discriminate|discriminate].
  injection Hrun' as -> ->.
  assert (values' = values) by congruence. subst values'.
  destruct (partition_voronoi_2_inv random _ _ _ _ _ _ _ _ Hpart)
    as (Hpos & [(-> & _)|(_ & (Hs & Hc & _) & Hperm)]); [congruence|].
  destruct (enumerate_rows App2.Row clusters 0) as (Hrows & Hsnd & Hin).
  set (pairs := concat (map (fun p : nat * list Qc =>
                               let (i, c) := p in map (fun v => (i, v)) c)
                          (combine (seq 0 (List.length clusters)) clusters))) in *.
  exists pairs, clusters, seeds, n. split; [reflexivity|].
  split; [assumption|]. split; [|split].
  - unfold App2.on_save_csv. cbn [App2.last_result].
    destruct path; [congruence|]. cbn [nonempty negb].
    unfold App2.csv_rows, enumerate. do 3 f_equal. exact Hrows.
  - rewrite Hsnd. exact Hperm.
  - apply Forall_forall. intros [i v] Hiv. cbn [fst snd].
    destruct (Hin i v Hiv) as (_ & c & Hc' & Hv'). rewrite Nat.sub_0_r in Hc'.
    split; [|eauto].
    rewrite <- Hc. apply nth_error_Some. congruence.
Qed.

End App2Handlers.

(** * The further properties on sample inputs *)

Lemma duplicate_seed_has_empty_cluster_witness :
  let values := numbers [5; 5; 7]%Z in
  let r := partition_voronoi always_half values 2 0 "random" 0 in
  r = (Ok (returned_clusters (fst r), returned_seeds (fst r)), snd r)
  /\ nth_error (returned_clusters (fst r)) 1 = Some [].
Proof.
  intros values r.
  assert (H : r = (Ok (returned_clusters (fst r), returned_seeds (fst r)), snd r))
    by (vm_compute; reflexivity).
  split; [exact H|].
  apply (duplicate_seed_has_empty_cluster always_half values 2 0 "random" 0 (snd r)
           _ _ H 0 1 (nth 0 (returned_seeds (fst r)) (Q2Qc 0)));
    [lia|vm_compute; reflexivity|vm_compute; reflexivity].
Defined.

Lemma nonempty_clusters_bounded_witness :
  let values := numbers [1; 2; 3]%Z in
  let r := partition_voronoi always_half values 5 0 "quantile" 0 in
  r = (Ok (returned_clusters (fst r), returned_seeds (fst r)), snd r)
  /\ Z.to_nat 5 - List.length values
     <= List.length (filter (fun c => Nat.eqb (List.length c) 0)
                       (returned_clusters (fst r))).
Proof.
  intros values r.
  assert (H : r = (Ok (returned_clusters (fst r), returned_seeds (fst r)), snd r))
    by (vm_compute; reflexivity).
  split; [exact H|].
  apply (nonempty_clusters_bounded always_half values 5 0 "quantile" 0 (snd r)
           _ _ H).
Defined.

Lemma returned_seed_count_witness :
  let r := partition_voronoi always_half [] 4 3 "quantile" 0 in
  r = (Ok (returned_clusters (fst r), returned_seeds (fst r)), snd r)
  /\ List.length (returned_seeds (fst r)) = 0.
Proof.
  intros r.
  assert (H : r = (Ok (returned_clusters (fst r), returned_seeds (fst r)), snd r))
    by (vm_compute; reflexivity).
  split; [exact H|].
  apply (returned_seed_count always_half [] 4 3 "quantile" 0 (snd r) _ _ H).
Defined.

Lemma app1_parse_values_join_witness :
  let sep := str ", " in
  let ts := [str "1"; str "-2"; str "30"] in
  let vals := numbers [1; -2; 30]%Z in
  sep <> []
  /\ Forall (fun c => separator_1 c = true) sep
  /\ Forall (fun t => t <> []
                      /\ Forall (fun x => separator_1 x = false /\ isspace x = false) t)
       ts
  /\ Forall2 (fun t x => integer_float t = Some x) ts vals
  /\ App1.parse_values integer_float (join_text sep ts) = Values vals.
Proof.
  intros sep ts vals.
  assert (H1 : sep <> []) by discriminate.
  assert (H2 : Forall (fun c => separator_1 c = true) sep)
    by (repeat constructor).
  assert (H3 : Forall (fun t => t <> []
                               /\ Forall (fun x => separator_1 x = false
                                                   /\ isspace x = false) t) ts).
  { repeat (constructor; [split; [discriminate|repeat constructor]|]).
    constructor. }
  assert (H4 : Forall2 (fun t x => integer_float t = Some x) ts vals).
  { repeat (constructor; [vm_compute; reflexivity|]). constructor. }
  repeat (split; [assumption|]).
  exact (app1_parse_values_join integer_float sep ts vals H1 H2 H3 H4).
Defined.

Lemma app2_minus_token_witness :
  let b := str "5" in
  Forall (fun c => c <> 45%N) (@nil N) /\ Forall (fun c => c <> 45%N) b
  /\ integer_float [] = None
  /\ App2.token_values integer_float fits_ssize_t ([] ++ 45%N :: b)
     = Values [of_Z (-5)].
Proof.
  intros b.
  assert (Ha : Forall (fun c => c <> 45%N) (@nil N)) by constructor.
  assert (Hb : Forall (fun c => c <> 45%N) b) by (repeat constructor; discriminate).
  split; [exact Ha|]. split; [exact Hb|]. split; [reflexivity|].
  rewrite (app2_minus_token integer_float fits_ssize_t [] b Ha Hb
             (or_introl eq_refl)).
  vm_compute. reflexivity.
Defined.

Lemma app1_format_num_integer_witness :
  is_integer (of_Z (-12)) = true
  /\ App1._format_num (fun _ => []) (of_Z (-12)) = str_int (int (of_Z (-12))).
Proof.
  split; [reflexivity|].
  apply (app1_format_num_integer (fun _ => []) (of_Z (-12))). reflexivity.
Defined.

Lemma app1_cluster_line_reads_back_witness :
  let c := numbers [3; -4; 10]%Z in
  let str_float := fun _ : Qc => @nil N in
  Forall (fun x => integer_float (App1._format_num str_float x) = Some x) c
  /\ Forall (fun x => is_integer x = false ->
                      str_float x <> []
                      /\ Forall (fun ch => separator_1 ch = false /\ isspace ch = false)
                           (str_float x)) c
  /\ App1.parse_values integer_float
       (join_text (str ", ") (map (App1._format_num str_float) c))
     = Values c.
Proof.
  intros c str_float.
  assert (H1 : Forall (fun x => integer_float (App1._format_num str_float x) = Some x) c).
  { repeat (constructor; [vm_compute; reflexivity|]). constructor. }
  assert (H2 : Forall (fun x => is_integer x = false ->
                                str_float x <> []
                                /\ Forall (fun ch => separator_1 ch = false
                                                     /\ isspace ch = false)
                                     (str_float x)) c).
  { repeat (constructor; [intros E; vm_compute in E; discriminate E|]). constructor. }
  split; [exact H1|]. split; [exact H2|].
  exact (app1_cluster_line_reads_back integer_float str_float c H1 H2).
Defined.

Lemma app1_on_convert_shows_what_it_saves_witness :
  let r := App1.on_convert integer_float always_half (fun _ => []) (fun _ => [])
             (str "1 2 8") (Some 2%Z) (Some 0%Z) "quantile" true
             (Some (str "out.txt")) [] 0 in
  let shown := fst (value_or ([], []) (fst r)) in
  let effects := snd (value_or ([], []) (fst r)) in
  r = (Ok (shown, effects), snd r)
  /\ forall path written,
       In (App1.WriteFile path written) effects ->
       Some (str "out.txt") = Some path /\ written = shown.
Proof.
  intros r shown effects.
  assert (H : r = (Ok (shown, effects), snd r)) by (vm_compute; reflexivity).
  split; [exact H|].
  apply (app1_on_convert_shows_what_it_saves integer_float always_half
           (fun _ => []) (fun _ => []) (str "1 2 8") (Some 2%Z) (Some 0%Z)
           "quantile" true (Some (str "out.txt")) [] 0 (snd r) shown effects H).
Defined.

Lemma app2_state_invariant_witness :
  let st := App2.state_after
              (fst (App2.on_run integer_float fits_ssize_t always_half
                      (str "1 2 8") (Some 2%Z) (Some 3%Z) "quantile"
                      app2_start 0))
              app2_start in
  App2.reachable integer_float fits_ssize_t always_half st
  /\ match App2.last_result st with
     | None => App2.output_text st = []
     | Some (clusters, seeds) =>
         seeds <> []
         /\ List.length clusters = List.length seeds
         /\ concat clusters <> []
         /\ (App2.output_text st = []
             \/ exists init_method lloyd_iters n_seeds,
                  App2.output_text st
                  = App2.out_lines init_method lloyd_iters n_seeds clusters seeds)
     end.
Proof.
  intros st.
  assert (H : App2.reachable integer_float fits_ssize_t always_half st).
  { apply App2.reach_run. apply App2.reach_start. }
  split; [exact H|].
  exact (app2_state_invariant integer_float fits_ssize_t always_half st H).
Defined.

Lemma app2_range_token_witness :
  let a := str "2" in
  let b := str "5" in
  Forall (fun c => c <> 45%N) a /\ Forall (fun c => c <> 45%N) b
  /\ integer_float a = Some (of_Z 2) /\ integer_float b = Some (of_Z 5)
  /\ is_integer (of_Z 2) = true /\ is_integer (of_Z 5) = true
  /\ (int (of_Z 2) <= int (of_Z 5))%Z
  /\ App2.token_values integer_float fits_ssize_t (a ++ 45%N :: b)
     = Values (numbers [2; 3; 4; 5]%Z)
  /\ App2.token_values integer_float (fun _ _ => false) (a ++ 45%N :: b)
     = BadToken (a ++ 45%N :: b).
Proof.
  intros a b.
  assert (Ha : Forall (fun c => c <> 45%N) a) by (repeat constructor; discriminate).
  assert (Hb : Forall (fun c => c <> 45%N) b) by (repeat constructor; discriminate).
  assert (Hx : integer_float a = Some (of_Z 2)) by (vm_compute; reflexivity).
  assert (Hy : integer_float b = Some (of_Z 5)) by (vm_compute; reflexivity).
  assert (Hix : is_integer (of_Z 2) = true) by reflexivity.
  assert (Hiy : is_integer (of_Z 5) = true) by reflexivity.
  assert (Hle : (int (of_Z 2) <= int (of_Z 5))%Z) by (vm_compute; discriminate).
  repeat (split; [assumption|]).
  split.
  - destruct (app2_range_token integer_float fits_ssize_t a b (of_Z 2) (of_Z 5)
                Ha Hb Hx Hy Hix Hiy Hle) as [_ H].
    rewrite H. vm_compute. reflexivity.
  - destruct (app2_range_token integer_float (fun _ _ => false) a b (of_Z 2)
                (of_Z 5) Ha Hb Hx Hy Hix Hiy Hle) as [_ H].
    rewrite H. vm_compute. reflexivity.
Defined.

Lemma app2_on_run_outcome_witness :
  let r := App2.on_run integer_float fits_ssize_t always_half (str "1 2 8")
             (Some 2%Z) None "quantile" app2_start 0 in
  r = (fst r, snd r)
  /\ fst r = App2.TclError.
Proof.
  intros r.
  assert (H : r = (fst r, snd r)) by (vm_compute; reflexivity).
  split; [exact H|].
  destruct (app2_on_run_outcome integer_float fits_ssize_t always_half
              (str "1 2 8") (Some 2%Z) None "quantile" app2_start (fst r) 0
              (snd r) H) as [_ [_ Hescape]].
  apply Hescape. split; [|right; reflexivity].
  exists (numbers [1; 2; 8]%Z). split; [vm_compute; reflexivity|discriminate].
Defined.

Lemma app2_csv_rows_witness :
  let values := numbers [1; 2; 8]%Z in
  let r := App2.on_run integer_float fits_ssize_t always_half (str "1 2 8")
             (Some 2%Z) (Some 3%Z) "quantile" app2_start 0 in
  let st' := App2.state_after (fst r) app2_start in
  App2.parse_values integer_float fits_ssize_t (str "1 2 8") = Values values
  /\ r = (App2.Returns st' [], snd r)
  /\ str "out.csv" <> []
  /\ exists pairs clusters seeds n,
       App2.last_result st' = Some (clusters, seeds)
       /\ Some 2%Z = Some n
       /\ App2.on_save_csv st' (str "out.csv") true
          = [App2.WriteFile (str "out.csv")
               (App2.Header :: map (fun p => App2.Row (fst p) (snd p)) pairs);
             App2.Message (App2.Saved (str "out.csv"))]
       /\ Permutation (map snd pairs) values
       /\ Forall (fun p => fst p < Z.to_nat n
                           /\ exists c, nth_error clusters (fst p) = Some c
                                        /\ In (snd p) c) pairs.
Proof.
  intros values r st'.
  assert (Hp : App2.parse_values integer_float fits_ssize_t (str "1 2 8")
               = Values values)
    by (vm_compute; reflexivity).
  assert (H : r = (App2.Returns st' [], snd r)) by (vm_compute; reflexivity).
  assert (Hpath : str "out.csv" <> []) by discriminate.
  split; [exact Hp|]. split; [exact H|]. split; [exact Hpath|].
  exact (app2_csv_rows integer_float fits_ssize_t always_half (str "1 2 8")
           (Some 2%Z) (Some 3%Z) "quantile" app2_start st' 0 (snd r) values
           (str "out.csv") Hp H Hpath).
Defined.

(** The two parsers on sample lines. *)
Example app1_parse_sample :
  App1.parse_values integer_float (str "  1, 2;;3 -4 ")
  = Values (numbers [1; 2; 3; -4]%Z)
  /\ App1.parse_values integer_float (str "1 2x 3y") = BadToken (str "2x")
  /\ App1.parse_values integer_float (str "1-3") = BadToken (str "1-3").
Proof. repeat split; vm_compute; reflexivity. Qed.

Example app2_parse_sample :
  App2.parse_values integer_float fits_ssize_t (str "1-3, 7 -2")
  = Values (numbers [1; 2; 3; 7; -2]%Z)
  /\ App2.parse_values integer_float fits_ssize_t (str "5-1")
     = BadToken (str "5-1")
  /\ App2.parse_values integer_float fits_ssize_t (str "1;2")
     = BadToken (str "1;2")
  /\ App2.parse_values integer_float (fun _ _ => false) (str "1-3")
     = BadToken (str "1-3").
Proof. repeat split; vm_compute; reflexivity. Qed.

(** * The function over doubles *)

(** ** The order of doubles *)

Section DoubleOrder.

Import PrimFloat SpecFloat FloatOps FloatAxioms.

Ltac by_cases_on_order :=
  repeat match goal with
         | |- context [(?x ?= ?y)%Z] => destruct (Z.compare_spec x y)
         | |- context [Pos.compare_cont Eq ?x ?y] =>
             change (Pos.compare_cont Eq x y) with (Pos.compare x y);
             destruct (Pos.compare_spec x y)
         end;
  simpl; intros; subst; try reflexivity; try discriminate; try lia.

Lemma SFcompare_refl (a : spec_float) :
  a <> S754_nan -> SFcompare a a = Some Eq.
Proof.
  destruct a as [s|s| |s m e]; simpl; intros H; try congruence.
  - destruct s; reflexivity.
  - rewrite Z.compare_refl, Pos.compare_cont_refl. destruct s; reflexivity.
Qed.

Lemma SFleb_total (a b : spec_float) :
  a <> S754_nan -> b <> S754_nan -> SFleb a b = false -> SFltb b a = true.
Proof.
  unfold SFltb, SFleb.
  destruct a as [s|s| |s m e], b as [s'|s'| |s' m' e']; simpl;
    try congruence; intros _ _;
    try (destruct s; (reflexivity || discriminate));
    try (destruct s'; (reflexivity || discriminate));
    try (destruct s, s'; (reflexivity || discriminate)).
  destruct s, s'; try (reflexivity || discriminate); by_cases_on_order.
Qed.

Lemma SFltb_leb (a b : spec_float) : SFltb a b = true -> SFleb a b = true.
Proof.
  unfold SFltb, SFleb. destruct (SFcompare a b) as [[| |]|]; congruence.
Qed.

Lemma SFltb_leb_trans (a b c : spec_float) :
  SFltb a b = true -> SFleb b c = true -> SFltb a c = true.
Proof.
  unfold SFltb, SFleb.
  destruct a as [s1|s1| |s1 m1 e1], b as [s2|s2| |s2 m2 e2], c as [s3|s3| |s3 m3 e3];
    simpl; try discriminate;
    try (destruct s1; (reflexivity || discriminate));
    try (destruct s2; (reflexivity || discriminate));
    try (destruct s3; (reflexivity || discriminate));
    try (destruct s1, s2; (reflexivity || discriminate));
    try (destruct s1, s3; (reflexivity || discriminate));
    try (destruct s2, s3; (reflexivity || discriminate));
    try (destruct s1, s2, s3; (reflexivity || discriminate)).
  all: destruct s1, s2, s3; try (reflexivity || discriminate); by_cases_on_order.
Qed.

Lemma SFleb_not_nan (a b : spec_float) :
  SFleb a b = true -> a <> S754_nan /\ b <> S754_nan.
Proof.
  unfold SFleb. destruct a, b; simpl; try discriminate; split; discriminate.
Qed.

Lemma is_nan_Prim2SF (x : float) : is_nan x = false <-> Prim2SF x <> S754_nan.
Proof.
  unfold is_nan. rewrite eqb_spec, negb_false_iff. unfold SFeqb. split.
  - intros H E. rewrite E in H. discriminate.
  - intros H. rewrite SFcompare_refl by assumption. reflexivity.
Qed.

(** Two doubles that are not NaN compare one way or the other. *)
Lemma leb_total (x y : float) :
  is_nan x = false -> is_nan y = false ->
  (x <=? y)%float = false -> (y <? x)%float = true.
Proof.
  rewrite !is_nan_Prim2SF, leb_spec, ltb_spec. apply SFleb_total.
Qed.

Lemma ltb_leb (x y : float) : (x <? y)%float = true -> (x <=? y)%float = true.
Proof. rewrite leb_spec, ltb_spec. apply SFltb_leb. Qed.

Lemma ltb_leb_trans (x y z : float) :
  (x <? y)%float = true -> (y <=? z)%float = true -> (x <? z)%float = true.
Proof. rewrite leb_spec, !ltb_spec. apply SFltb_leb_trans. Qed.

Lemma leb_refl (x : float) : is_nan x = false -> (x <=? x)%float = true.
Proof.
  rewrite is_nan_Prim2SF, leb_spec. intros H. unfold SFleb.
  rewrite SFcompare_refl by assumption. reflexivity.
Qed.

(** NaN compares with nothing. *)
Lemma leb_not_nan (x y : float) :
  (x <=? y)%float = true -> is_nan x = false /\ is_nan y = false.
Proof. rewrite !is_nan_Prim2SF, leb_spec. apply SFleb_not_nan. Qed.

End DoubleOrder.

Section DoublesFacts.

Import PrimFloat DoublesNotions.

(** ** [argmin] over doubles *)

Lemma doubles_argmin_scan_spec (full : list float) :
  forall row pre mp min_ind,
    full = pre ++ row ->
    is_nan mp = false ->
    min_ind < List.length pre ->
    nth_error full min_ind = Some mp ->
    (forall j x, j < List.length pre -> nth_error full j = Some x ->
                 (mp <=? x)%float = true) ->
    (forall j x, j < min_ind -> nth_error full j = Some x ->
                 (mp <? x)%float = true) ->
    first_nan_or_min full (Doubles.argmin_scan mp min_ind (List.length pre) row).
Proof.
  induction row as [|x row IH]; intros pre mp min_ind Hfull Hnan Hlt Hmp Hle Hfirst.
  - simpl. exists mp. split; [assumption|]. split; [congruence|].
    intros _ j y Hy. split; [|intros Hj; eauto].
    apply (Hle j); auto. rewrite app_nil_r in Hfull. subst full.
    apply nth_error_Some. congruence.
  - assert (Hx : nth_error full (List.length pre) = Some x).
    { subst full. rewrite nth_error_app2 by lia.
      rewrite Nat.sub_diag. reflexivity. }
    assert (Hfull' : full = (pre ++ [x]) ++ row).
    { rewrite <- app_assoc. exact Hfull. }
    assert (Hlen : List.length (pre ++ [x]) = S (List.length pre)).
    { rewrite length_app. simpl. lia. }
    cbn [Doubles.argmin_scan]. destruct (mp <=? x)%float eqn:E; cbn [negb].
    + rewrite <- Hlen. apply IH; auto.
      * lia.
      * intros j y Hj Hy. rewrite Hlen in Hj.
        destruct (Nat.eq_dec j (List.length pre)) as [->|Hne].
        -- rewrite Hx in Hy. injection Hy as <-. exact E.
        -- apply (Hle j); auto. lia.
    + destruct (is_nan x) eqn:Ex.
      * exists x. split; [assumption|]. split; [|congruence].
        intros _ j y Hj Hy. apply (leb_not_nan mp y). apply (Hle j); auto.
      * assert (Hxm : (x <? mp)%float = true) by (apply leb_total; assumption).
        rewrite <- Hlen. apply IH; auto.
        -- lia.
        -- intros j y Hj Hy. rewrite Hlen in Hj.
           destruct (Nat.eq_dec j (List.length pre)) as [->|Hne].
           ++ rewrite Hx in Hy. injection Hy as <-. now apply leb_refl.
           ++ apply ltb_leb. apply (ltb_leb_trans x mp y); [assumption|].
              apply (Hle j); auto. lia.
        -- intros j y Hj Hy. apply (ltb_leb_trans x mp y); [assumption|].
           apply (Hle j); auto.
Qed.

Lemma doubles_argmin_spec (row : list float) (r : nat) :
  Doubles.argmin row = Ok r -> first_nan_or_min row r.
Proof.
  destruct row as [|x row]; simpl; [discriminate|].
  intros [= <-]. destruct (is_nan x) eqn:Ex.
  - exists x. split; [reflexivity|]. split; [|congruence].
    intros _ j y Hj. lia.
  - apply (doubles_argmin_scan_spec (x :: row) row [x]); simpl; auto.
    + intros [|j] y Hj; [|lia]. simpl. intros [= <-]. now apply leb_refl.
    + intros j y Hj. lia.
Qed.

Lemma first_nan_or_min_bound row r :
  first_nan_or_min row r -> r < List.length row.
Proof.
  intros (m & H & _). apply nth_error_Some. congruence.
Qed.

(** ** The assignment over doubles *)

Lemma doubles_distances_nth v seeds j :
  nth_error (Doubles.distances v seeds) j =
  option_map (fun s => abs (v - s)%float) (nth_error seeds j).
Proof. unfold Doubles.distances. apply nth_error_map. Qed.

Lemma doubles_nearest_Forall2 arr seeds idx :
  Doubles.nearest arr seeds = Ok idx ->
  Forall2 (fun v i => first_nan_or_min (Doubles.distances v seeds) i) arr idx.
Proof.
  unfold Doubles.nearest. rewrite mapM_Forall2. intros H.
  eapply Forall2_impl; [|exact H]. intros v i. apply doubles_argmin_spec.
Qed.

Lemma doubles_nearest_length arr seeds idx :
  Doubles.nearest arr seeds = Ok idx -> List.length idx = List.length arr.
Proof.
  intros H. apply doubles_nearest_Forall2 in H. symmetry.
  eapply Forall2_length; eauto.
Qed.

Lemma doubles_nearest_bound arr seeds idx :
  Doubles.nearest arr seeds = Ok idx ->
  Forall (fun i => i < List.length seeds) idx.
Proof.
  intros H. apply doubles_nearest_Forall2 in H.
  induction H as [|v i arr idx Hvi _ IH]; constructor; [|assumption].
  apply first_nan_or_min_bound in Hvi. unfold Doubles.distances in Hvi.
  now rewrite length_map in Hvi.
Qed.

Lemma doubles_nearest_total arr seeds :
  seeds <> [] -> exists idx, Doubles.nearest arr seeds = Ok idx.
Proof.
  intros H. apply mapM_total. intros v _.
  destruct seeds as [|s seeds]; [congruence|]. simpl. eauto.
Qed.

(** ** One relaxation pass over doubles *)

Lemma doubles_relocate_spec np arr idx seeds cur mv s old :
  nth_error seeds s = Some old ->
  nth_error cur s = Some old ->
  exists new,
    Doubles.relocate np arr idx seeds (cur, mv) s
    = Ok (new, mv || has_moved np arr idx seeds s)
    /\ setitem cur s (new_position np arr idx seeds s) = Ok new.
Proof.
  intros Hs Hc.
  assert (Hlt : s < List.length cur) by (apply nth_error_Some; congruence).
  assert (Hold : nth s seeds 0%float = old) by (now apply nth_error_nth).
  unfold Doubles.relocate, has_moved, new_position. rewrite Hold.
  destruct (Doubles.members arr idx s) as [|x m] eqn:Em.
  - simpl. rewrite orb_false_r.
    exists cur. split; [reflexivity|].
    destruct (setitem_lt cur s old Hlt) as [ys Hys].
    rewrite Hys. f_equal. eapply setitem_same; eauto.
  - cbn [List.length Nat.ltb Nat.leb].
    unfold getitem. rewrite Hs. cbn [bind].
    destruct (setitem_lt cur s (Doubles.mean np (x :: m)) Hlt) as [ys Hys].
    rewrite Hys. cbn [bind].
    exists ys. split; [|reflexivity].
    destruct (Doubles.mean np (x :: m) =? old)%float; destruct mv; reflexivity.
Qed.

Lemma doubles_relocate_fold np arr idx seeds :
  forall k a cur mv,
    a + k <= List.length seeds ->
    List.length cur = List.length seeds ->
    (forall j, a <= j -> nth_error cur j = nth_error seeds j) ->
    exists new,
      foldM (Doubles.relocate np arr idx seeds) (seq a k) (cur, mv)
      = Ok (new, mv || existsb (has_moved np arr idx seeds) (seq a k))
      /\ List.length new = List.length seeds
      /\ (forall j, j < a -> nth_error new j = nth_error cur j)
      /\ (forall j, a <= j < a + k ->
            nth_error new j = Some (new_position np arr idx seeds j))
      /\ (forall j, a + k <= j -> nth_error new j = nth_error seeds j).
Proof.
  induction k as [|k IH]; intros a cur mv Hk Hlen Hcur.
  - exists cur. simpl. rewrite orb_false_r. repeat split; auto.
    + intros j Hj. lia.
    + intros j Hj. apply Hcur. lia.
  - destruct (nth_error seeds a) as [old|] eqn:Ea;
      [|apply nth_error_None in Ea; lia].
    destruct (doubles_relocate_spec np arr idx seeds cur mv a old)
      as (new1 & Hrel & Hset);
      [assumption|rewrite Hcur by lia; assumption|].
    destruct (IH (S a) new1 (mv || has_moved np arr idx seeds a)) as
      (new & Hfold & Hlen' & Hbefore & Hin & Hafter).
    + lia.
    + rewrite (setitem_length _ _ _ _ Hset). assumption.
    + intros j Hj. rewrite (setitem_nth_other _ _ _ _ _ Hset) by lia.
      apply Hcur. lia.
    + exists new. cbn [seq foldM existsb]. rewrite Hrel. cbn [bind].
      rewrite Hfold, orb_assoc. repeat split; auto.
      * intros j Hj. rewrite Hbefore by lia.
        apply (setitem_nth_other _ _ _ _ _ Hset). lia.
      * intros j Hj. destruct (Nat.eq_dec j a) as [->|Hne].
        -- rewrite Hbefore by lia. apply (setitem_nth_same _ _ _ _ Hset).
        -- apply Hin. lia.
      * intros j Hj. apply Hafter. lia.
Qed.

(** What a pass returns, for as many seeds as [n_seeds]. *)
Lemma doubles_lloyd_pass_spec np arr seeds :
  seeds <> [] ->
  exists idx new,
    Doubles.nearest arr seeds = Ok idx
    /\ Doubles.lloyd_pass np arr seeds (List.length seeds)
       = Ok (new, existsb (has_moved np arr idx seeds) (seq 0 (List.length seeds)))
    /\ List.length new = List.length seeds
    /\ (forall s, s < List.length seeds ->
          nth_error new s = Some (new_position np arr idx seeds s)).
Proof.
  intros Hne. destruct (doubles_nearest_total arr seeds Hne) as [idx Hidx].
  destruct (doubles_relocate_fold np arr idx seeds (List.length seeds) 0 seeds false)
    as (new & Hfold & Hlen & _ & Hin & _); auto.
  exists idx, new. unfold Doubles.lloyd_pass. rewrite Hidx. cbn [bind].
  rewrite Hfold. simpl. repeat split; auto.
  intros s Hs. apply Hin. lia.
Qed.

(** ** The final partition over doubles *)

Lemma doubles_members_cons {A} (v : A) arr i idx k :
  Doubles.members (v :: arr) (i :: idx) k
  = if Nat.eqb i k then v :: Doubles.members arr idx k
    else Doubles.members arr idx k.
Proof.
  unfold Doubles.members. simpl. destruct (Nat.eqb i k); reflexivity.
Qed.

Lemma doubles_members_map {A B} (f : A -> B) (xs : list A) idx k :
  Doubles.members (map f xs) idx k = map f (Doubles.members xs idx k).
Proof.
  revert idx. induction xs as [|x xs IH]; intros [|i idx]; try reflexivity.
  cbn [map]. rewrite !doubles_members_cons.
  destruct (Nat.eqb i k); cbn [map]; now rewrite IH.
Qed.

Lemma doubles_members_In {A} (arr : list A) : forall idx k v,
  In v (Doubles.members arr idx k) ->
  exists p, nth_error arr p = Some v /\ nth_error idx p = Some k.
Proof.
  induction arr as [|x arr IH]; intros [|i idx] k v; try (intros []).
  rewrite doubles_members_cons. destruct (Nat.eqb_spec i k) as [->|Hne].
  - intros [<-|Hin].
    + exists 0. auto.
    + destruct (IH idx k v Hin) as (p & Hp & Hi). exists (S p). auto.
  - intros Hin. destruct (IH idx k v Hin) as (p & Hp & Hi). exists (S p). auto.
Qed.



(** When the loop over [zip(values, idx)] ends without an exception, every
    cluster has grown by the values of its index, in their order. *)
Lemma doubles_append_at_fold {V} :
  forall (values : list V) idx cl cl',
    foldM (Doubles.append_at V) (combine values idx) cl = Ok cl' ->
    List.length cl' = List.length cl
    /\ forall k c, nth_error cl k = Some c ->
         nth_error cl' k = Some (c ++ Doubles.members values idx k).
Proof.
  induction values as [|v values IH]; intros idx cl cl'.
  - simpl. intros [= <-]. split; [reflexivity|].
    intros k c Hk. unfold Doubles.members. simpl. now rewrite app_nil_r.
  - destruct idx as [|i idx].
    + simpl. intros [= <-]. split; [reflexivity|].
      intros k c Hk. unfold Doubles.members. simpl. now rewrite app_nil_r.
    + cbn [combine foldM Doubles.append_at]. unfold getitem.
      destruct (nth_error cl i) as [c|] eqn:Ec; cbn [bind]; [|discriminate].
      destruct (setitem cl i (c ++ [v])) as [cl1|] eqn:Hset; cbn [bind];
        [|discriminate].
      intros Hfold. destruct (IH idx cl1 cl' Hfold) as (Hlen & Hnth).
      split; [rewrite Hlen; apply (setitem_length _ _ _ _ Hset)|].
      intros k ck Hk. rewrite doubles_members_cons.
      destruct (Nat.eqb_spec i k) as [->|Hne].
      * rewrite Ec in Hk. injection Hk as <-.
        rewrite (Hnth k (c ++ [v])).
        -- rewrite <- app_assoc. reflexivity.
        -- apply (setitem_nth_same _ _ _ _ Hset).
      * apply Hnth. rewrite (setitem_nth_other _ _ _ _ _ Hset) by congruence.
        assumption.
Qed.

Lemma doubles_build_clusters_inv {V} (values : list V) idx n clusters :
  Doubles.build_clusters V values idx n = Ok clusters ->
  List.length clusters = n
  /\ forall k, k < n ->
       nth_error clusters k = Some (Doubles.members values idx k).
Proof.
  unfold Doubles.build_clusters. intros H.
  apply doubles_append_at_fold in H as (Hlen & Hnth).
  rewrite repeat_length in Hlen. split; [assumption|].
  intros k Hk. apply (Hnth k []). now apply nth_error_repeat.
Qed.


(** What a returned result is made of. *)
Lemma doubles_relax_and_split_inv np {V} (values : list V) arr seeds0 n
    lloyd_iters clusters seeds :
  Doubles.relax_and_split np V values arr seeds0 n lloyd_iters
  = Ok (clusters, seeds) ->
  Doubles.lloyd_iterations np (Z.to_nat lloyd_iters) arr seeds0 n = Ok seeds
  /\ exists idx,
       Doubles.nearest arr seeds = Ok idx
       /\ List.length clusters = n
       /\ forall k, k < n ->
            nth_error clusters k = Some (Doubles.members values idx k).
Proof.
  unfold Doubles.relax_and_split.
  destruct (Doubles.lloyd_iterations np _ arr seeds0 n) as [seeds1|] eqn:El;
    cbn [bind]; [|discriminate].
  destruct (Doubles.nearest arr seeds1) as [idx|] eqn:Ei; cbn [bind];
    [|discriminate].
  destruct (Doubles.build_clusters V values idx n) as [cl|] eqn:Eb; cbn [bind];
    [|discriminate].
  intros [= <- <-]. split; [reflexivity|]. exists idx. split; [assumption|].
  now apply doubles_build_clusters_inv.
Qed.

End DoublesFacts.
Section DoublesResults.

Import PrimFloat DoublesNotions.

Variable np : Doubles.numpy.

(** The index of a value, read on the seeds. *)
Lemma first_nan_or_min_distances (v : float) seeds i :
  first_nan_or_min (Doubles.distances v seeds) i ->
  exists si,
    nth_error seeds i = Some si
    /\ (is_nan (abs (v - si)) = true ->
        forall j sj, j < i -> nth_error seeds j = Some sj ->
          is_nan (abs (v - sj)) = false)
    /\ (is_nan (abs (v - si)) = false ->
        forall j sj, nth_error seeds j = Some sj ->
          (abs (v - si) <=? abs (v - sj))%float = true
          /\ (j < i -> (abs (v - si) <? abs (v - sj))%float = true)).
Proof.
  intros (m & Hm & Hnan & Hmin).
  rewrite doubles_distances_nth in Hm.
  destruct (nth_error seeds i) as [si|] eqn:Ei; [|discriminate].
  injection Hm as <-. exists si. split; [reflexivity|]. split.
  - intros Hd j sj Hj Hsj. apply (Hnan Hd j); [assumption|].
    rewrite doubles_distances_nth, Hsj. reflexivity.
  - intros Hd j sj Hsj. apply (Hmin Hd j).
    rewrite doubles_distances_nth, Hsj. reflexivity.
Qed.

(** ** The relaxation loop over doubles *)

Lemma doubles_lloyd_iterations_total arr :
  forall k seeds, seeds <> [] ->
    exists out,
      Doubles.lloyd_iterations np k arr seeds (List.length seeds) = Ok out
      /\ List.length out = List.length seeds.
Proof.
  induction k as [|k IH]; intros seeds Hne.
  - exists seeds. auto.
  - destruct (doubles_lloyd_pass_spec np arr seeds Hne)
      as (idx & new & _ & Hpass & Hlen & _).
    cbn [Doubles.lloyd_iterations]. rewrite Hpass. cbn [bind].
    destruct (existsb _ _); cbn [negb].
    + destruct (IH new) as (out & Hout & Hlen').
      * intros ->. destruct seeds; [congruence|discriminate].
      * exists out. rewrite <- Hlen, Hout. split; congruence.
    + exists new. auto.
Qed.

(** ** Seeds that all stand on one value *)





Section Values.

Variable V : Type.
Variable to_float : V -> float.


Variable random : nat -> float.

Lemma doubles_uniform_seeds_length lo hi n g :
  List.length (fst (Doubles.uniform_seeds random lo hi n g)) = n
  /\ snd (Doubles.uniform_seeds random lo hi n g) = g + n.
Proof.
  revert g. induction n as [|n IH]; intros g; simpl; [auto|].
  specialize (IH (S g)).
  destruct (Doubles.uniform_seeds random lo hi n (S g)). simpl in *.
  split; [f_equal; tauto|lia].
Qed.


(** What a returned result is made of, for both versions. *)
Lemma doubles_partition_voronoi_inv values n_seeds lloyd_iters init_method g
    clusters seeds g' :
  Doubles.partition_voronoi np V to_float random values n_seeds lloyd_iters
    init_method g = (Ok (clusters, seeds), g')
  \/ Doubles.partition_voronoi_2 np V to_float random values n_seeds lloyd_iters
       init_method g = (Ok (clusters, seeds), g') ->
  (1 <= n_seeds)%Z
  /\ List.length clusters = Z.to_nat n_seeds
  /\ (values = [] -> clusters = repeat [] (Z.to_nat n_seeds) /\ seeds = [])
  /\ (values <> [] ->
      exists idx,
        Doubles.nearest (map to_float values) seeds = Ok idx
        /\ forall k, k < Z.to_nat n_seeds ->
             nth_error clusters k = Some (Doubles.members values idx k)).
Proof.
  unfold Doubles.partition_voronoi, Doubles.partition_voronoi_2.
  destruct (Z.leb_spec n_seeds 0) as [Hn|Hn]; [intros [H|H]; discriminate|].
  destruct values as [|x values]; cbn [List.length Nat.eqb].
  - intros [H|H]; injection H as <- <- <-;
      (split; [lia|]); (split; [apply repeat_length|]); (split; [auto|congruence]).
  - intros H.
    assert (Hrun : exists seeds0,
               Doubles.relax_and_split np V (x :: values) (map to_float (x :: values))
                 seeds0 (Z.to_nat n_seeds) lloyd_iters = Ok (clusters, seeds)).
    { destruct H as [H|H];
        destruct (if String.eqb init_method "quantile" then _ else _)
          as [seeds0 g1]; injection H as H _; eauto. }
    destruct Hrun as (seeds0 & Hrun).
    apply doubles_relax_and_split_inv in Hrun as (_ & idx & Hidx & Hlen & Hnth).
    split; [lia|]. split; [assumption|]. split; [discriminate|].
    intros _. exists idx. auto.
Qed.

End Values.
End DoublesResults.
(** ** The claims that depend on the arithmetic *)

Section DoublesClaims.

Import PrimFloat DoublesNotions.

(** C2 as stated fails on doubles.  The value 10^17 and the seeds 0 and 1:
    seed 1 is nearer by one, but both distances round to the double 10^17,
    and the value goes to seed 0. *)
Lemma nearest_misses_nearer_seed :
  Doubles.nearest [Sample.large] [0; 1]%float = Ok [0]
  /\ exists d0 d1,
       real_distance Sample.large 0 = Some d0
       /\ real_distance Sample.large 1 = Some d1
       /\ (d0 == 100000000000000000)%Q
       /\ (d1 == 99999999999999999)%Q
       /\ (d1 < d0)%Q.
Proof.
  split; [vm_compute; reflexivity|].
  eexists. eexists.
  split; [vm_compute; reflexivity|].
  split; [vm_compute; reflexivity|].
  split; [vm_compute; reflexivity|].
  split; vm_compute; reflexivity.
Qed.

(** C2, amended.  In a relaxation pass and in the final split alike, the
    index given to a value is the lowest index among the seeds whose
    distance from it, as the program computes it in doubles
    ([abs (value - seed)], rounded), is least: no seed has a smaller
    computed distance and every seed of a lower index has a strictly
    greater one.  When a computed distance is NaN, the index is that of
    the first seed with a NaN distance.  This holds for every list of
    values and every non-empty seed configuration. *)
Theorem nearest_lowest_index (arr seeds : list float) :
  seeds <> [] ->
  exists idx,
    Doubles.nearest arr seeds = Ok idx
    /\ List.length idx = List.length arr
    /\ (forall p v i,
          nth_error arr p = Some v -> nth_error idx p = Some i ->
          exists si,
            nth_error seeds i = Some si
            /\ (is_nan (abs (v - si)) = false ->
                forall j sj, nth_error seeds j = Some sj ->
                  (abs (v - si) <=? abs (v - sj))%float = true
                  /\ (j < i -> (abs (v - si) <? abs (v - sj))%float = true))
            /\ (is_nan (abs (v - si)) = true ->
                forall j sj, j < i -> nth_error seeds j = Some sj ->
                  is_nan (abs (v - sj)) = false))
    /\ (forall np n_seeds,
          Doubles.lloyd_pass np arr seeds n_seeds
          = foldM (Doubles.relocate np arr idx seeds) (seq 0 n_seeds)
              (seeds, false))
    /\ (forall np (V : Type) (values : list V) seeds0 n_seeds lloyd_iters,
          Doubles.lloyd_iterations np (Z.to_nat lloyd_iters) arr seeds0 n_seeds
          = Ok seeds ->
          Doubles.relax_and_split np V values arr seeds0 n_seeds lloyd_iters
          = (clusters <- Doubles.build_clusters V values idx n_seeds ;;
             Ok (clusters, seeds))).
Proof.
  intros Hne. destruct (doubles_nearest_total arr seeds Hne) as [idx Hidx].
  exists idx. split; [assumption|].
  split; [eapply doubles_nearest_length; eauto|].
  split; [|split].
  - intros p v i Hv Hi.
    pose proof (Forall2_nth_error _ _ _ (doubles_nearest_Forall2 _ _ _ Hidx)
                  p v i Hv Hi) as Hmin.
    apply first_nan_or_min_distances in Hmin as (si & Hsi & Hnan & Hleast).
    exists si. auto.
  - intros np n_seeds. unfold Doubles.lloyd_pass. rewrite Hidx. reflexivity.
  - intros np V values seeds0 n_seeds lloyd_iters Hloop.
    unfold Doubles.relax_and_split.
    rewrite Hloop. cbn [bind]. rewrite Hidx. reflexivity.
Qed.

Lemma nearest_lowest_index_witness :
  [1; 4]%float <> []
  /\ exists idx,
       Doubles.nearest [0; 5; 3; 2.5]%float [1; 4]%float = Ok idx
       /\ idx = [0; 1; 1; 0]
       /\ forall p v i,
            nth_error [0; 5; 3; 2.5]%float p = Some v ->
            nth_error idx p = Some i ->
            exists si, nth_error [1; 4]%float i = Some si.
Proof.
  split; [discriminate|].
  destruct (nearest_lowest_index [0; 5; 3; 2.5]%float [1; 4]%float)
    as (idx & Hidx & Hlen & Hleast & _); [discriminate|].
  exists idx. split; [assumption|]. split.
  - vm_compute in Hidx. congruence.
  - intros p v i Hv Hi. destruct (Hleast p v i Hv Hi) as (si & Hsi & _).
    exists si. assumption.
Defined.

(** The tie of the value 3 between the seeds 2 and 4 goes to the seed of the
    lower index, wherever that seed stands; a seed at NaN takes every
    value. *)
Example nearest_tie_doubles :
  Doubles.nearest [3]%float [2; 4]%float = Ok [0]
  /\ Doubles.nearest [3]%float [4; 2]%float = Ok [0]
  /\ Doubles.nearest [3; 2]%float [2; nan; 3]%float = Ok [1; 1].
Proof. repeat split; vm_compute; reflexivity. Qed.

(** C3 as stated fails on doubles.  Over three values at the double 0.1
    the seed 0.1 stands on their arithmetic mean, yet the pass moves it to
    the next double above: numpy's sum of the three values is rounded
    before it is divided by three. *)
Lemma lloyd_pass_rounds_the_mean :
  Doubles.lloyd_pass Sample.numpy [Sample.tenth; Sample.tenth; Sample.tenth]
    [Sample.tenth] 1
  = Ok ([Sample.above_tenth], true)
  /\ exists a b,
       Doubles.exact Sample.tenth = Some a
       /\ Doubles.exact Sample.above_tenth = Some b
       /\ ((a + a + a) / 3 == a)%Q
       /\ (a < b)%Q.
Proof.
  split; [vm_compute; reflexivity|].
  eexists. eexists.
  split; [vm_compute; reflexivity|].
  split; [vm_compute; reflexivity|].
  split; vm_compute; reflexivity.
Qed.

(** C3, amended.  A relaxation pass never fails and keeps the number of
    seeds.  The values assigned to seed [s] are the values of the array
    whose index in the assignment is [s], in their order; a seed with at
    least one of them moves to their mean as numpy computes it in doubles,
    the sum that numpy gives for them divided by their number, and a seed
    with none keeps its position. *)
Theorem lloyd_pass_recentres (np : Doubles.numpy) (arr seeds : list float) :
  seeds <> [] ->
  exists idx new moved,
    Doubles.nearest arr seeds = Ok idx
    /\ Doubles.lloyd_pass np arr seeds (List.length seeds) = Ok (new, moved)
    /\ List.length new = List.length seeds
    /\ forall s old,
         nth_error seeds s = Some old ->
         nth_error new s
         = Some match map fst (filter (fun p => Nat.eqb (snd p) s)
                                 (combine arr idx)) with
                | [] => old
                | x :: assigned =>
                    (Doubles.sum np (x :: assigned)
                     / Doubles.of_nat (List.length (x :: assigned)))%float
                end.
Proof.
  intros Hne.
  destruct (doubles_lloyd_pass_spec np arr seeds Hne)
    as (idx & new & Hidx & Hpass & Hlen & Hnth).
  exists idx, new, (existsb (has_moved np arr idx seeds) (seq 0 (List.length seeds))).
  repeat split; auto.
  intros s old Hs. rewrite Hnth by (apply nth_error_Some; congruence).
  unfold new_position, Doubles.members, Doubles.mean.
  destruct (map fst _); [|reflexivity].
  f_equal. now apply nth_error_nth.
Qed.

(** The seeds 1, 4 and 9 over the values 0, 5, 2, 4: the first two go to the
    means 1 and 4.5 of their values (0, 2 and 5, 4), the third has no value
    and stays at 9. *)
Lemma lloyd_pass_recentres_witness :
  [1; 4; 9]%float <> []
  /\ exists new moved,
       Doubles.lloyd_pass Sample.numpy [0; 5; 2; 4]%float [1; 4; 9]%float 3
       = Ok (new, moved)
       /\ nth_error new 0 = Some 1%float
       /\ nth_error new 1 = Some 4.5%float
       /\ nth_error new 2 = Some 9%float.
Proof.
  split; [discriminate|].
  destruct (lloyd_pass_recentres Sample.numpy [0; 5; 2; 4]%float [1; 4; 9]%float)
    as (idx & new & moved & Hidx & Hpass & Hlen & Hnew); [discriminate|].
  exists new, moved. split; [exact Hpass|].
  assert (Hi : idx = [0; 1; 0; 1]) by (vm_compute in Hidx; congruence).
  subst idx.
  split; [|split].
  - rewrite (Hnew 0 1%float eq_refl). vm_compute. reflexivity.
  - rewrite (Hnew 1 4%float eq_refl). vm_compute. reflexivity.
  - rewrite (Hnew 2 9%float eq_refl). vm_compute. reflexivity.
Defined.




(** The scenario of the specification, run in both versions. *)
Example four_fives_doubles :
  fst (Doubles.partition_voronoi Sample.numpy float Sample.itself Sample.half
         [5; 5; 5; 5]%float 2 0 "random" 0)
  = Ok ([[5; 5; 5; 5]; []], [5; 5])%float
  /\ fst (Doubles.partition_voronoi_2 Sample.numpy float Sample.itself Sample.half
            [5; 5; 5; 5]%float 2 0 "random" 0)
     = Ok ([[5; 5; 5; 5]; []], [5; 5])%float.
Proof. split; vm_compute; reflexivity. Qed.

(** The example of the command-line version, on doubles. *)
Example partition_ten_quantile_doubles :
  fst (Doubles.partition_voronoi Sample.numpy float Sample.itself Sample.half
         [0; 1; 2; 3; 4; 5; 6; 7; 8; 9]%float 3 10 "quantile" 0)
  = Ok ([[0; 1; 2; 3]; [4; 5; 6]; [7; 8; 9]], [1.5; 5; 8])%float.
Proof. vm_compute. reflexivity. Qed.

End DoublesClaims.

(** ** Further properties that depend on the arithmetic *)

Section DoublesProperties.

Import PrimFloat DoublesNotions.

Variable np : Doubles.numpy.
Variable V : Type.
Variable to_float : V -> float.
Variable random : nat -> float.

(** X1. Every member of a returned cluster has the seed of that cluster as
    the first of its nearest returned seeds, by the distances that the
    program computes in doubles: no returned seed has a smaller computed
    distance from the member, and every seed of a lower index has a
    strictly greater one.  A member with a NaN distance is in the cluster
    of the first seed at a NaN distance from it. *)
Theorem members_nearest_to_own_seed
    (values : list V) (n_seeds lloyd_iters : Z) (init_method : string)
    (g g' : nat) (clusters : list (list V)) (seeds : list float) :
  Doubles.partition_voronoi np V to_float random values n_seeds lloyd_iters
    init_method g = (Ok (clusters, seeds), g')
  \/ Doubles.partition_voronoi_2 np V to_float random values n_seeds lloyd_iters
       init_method g = (Ok (clusters, seeds), g') ->
  forall k c x,
    nth_error clusters k = Some c -> In x c ->
    exists sk,
      nth_error seeds k = Some sk
      /\ (is_nan (abs (to_float x - sk)) = false ->
          forall j sj, nth_error seeds j = Some sj ->
            (abs (to_float x - sk) <=? abs (to_float x - sj))%float = true
            /\ (j < k ->
                (abs (to_float x - sk) <? abs (to_float x - sj))%float = true))
      /\ (is_nan (abs (to_float x - sk)) = true ->
          forall j sj, j < k -> nth_error seeds j = Some sj ->
            is_nan (abs (to_float x - sj)) = false).
Proof.
  intros Hrun k c x Hk Hx.
  apply doubles_partition_voronoi_inv in Hrun as (Hn & Hlen & Hnil & Hcons).
  destruct values as [|v0 values'] eqn:Ev.
  { destruct Hnil as [-> _]; [reflexivity|].
    apply nth_error_In, repeat_spec in Hk. subst c. destruct Hx. }
  rewrite <- Ev in *.
  destruct Hcons as (idx & Hidx & Hnth); [congruence|].
  assert (Hkn : k < Z.to_nat n_seeds).
  { rewrite <- Hlen. apply nth_error_Some. congruence. }
  rewrite (Hnth k Hkn) in Hk. injection Hk as <-.
  apply doubles_members_In in Hx as (p & Hp & Hi).
  assert (Hp' : nth_error (map to_float values) p = Some (to_float x)).
  { rewrite nth_error_map, Hp. reflexivity. }
  pose proof (Forall2_nth_error _ _ _ (doubles_nearest_Forall2 _ _ _ Hidx)
                p (to_float x) k Hp' Hi) as Hmin.
  apply first_nan_or_min_distances in Hmin as (sk & Hsk & Hnan & Hleast).
  exists sk. auto.
Qed.


(** X7. When the returned seeds are such that one more relaxation pass
    would count no seed as moved, every returned seed with a cluster that
    is not empty compares equal to the mean of that cluster as the program
    computes it: the sum that numpy gives for the doubles of the cluster,
    divided by their number. *)
Theorem converged_seeds_are_centroids
    (values : list V) (n_seeds lloyd_iters : Z) (init_method : string)
    (g g' : nat) (clusters : list (list V)) (seeds new : list float) :
  Doubles.partition_voronoi np V to_float random values n_seeds lloyd_iters
    init_method g = (Ok (clusters, seeds), g')
  \/ Doubles.partition_voronoi_2 np V to_float random values n_seeds lloyd_iters
       init_method g = (Ok (clusters, seeds), g') ->
  Doubles.lloyd_pass np (map to_float values) seeds (List.length seeds)
  = Ok (new, false) ->
  forall k c,
    nth_error clusters k = Some c -> c <> [] ->
    exists sk,
      nth_error seeds k = Some sk
      /\ (Doubles.sum np (map to_float c) / Doubles.of_nat (List.length c)
          =? sk)%float = true.
Proof.
  intros Hrun Hpass k c Hk Hc.
  apply doubles_partition_voronoi_inv in Hrun as (Hn & Hlen & Hnil & Hcons).
  destruct values as [|v0 values'] eqn:Ev.
  { destruct Hnil as [-> _]; [reflexivity|].
    apply nth_error_In, repeat_spec in Hk. congruence. }
  rewrite <- Ev in *.
  destruct Hcons as (idx & Hidx & Hnth); [congruence|].
  assert (Hkn : k < Z.to_nat n_seeds).
  { rewrite <- Hlen. apply nth_error_Some. congruence. }
  rewrite (Hnth k Hkn) in Hk. injection Hk as <-.
  assert (Hks : k < List.length seeds).
  { destruct (Doubles.members values idx k) as [|x m] eqn:Em; [congruence|].
    assert (Hx : In x (Doubles.members values idx k)) by (rewrite Em; now left).
    apply doubles_members_In in Hx as (p & _ & Hi).
    pose proof (doubles_nearest_bound _ _ _ Hidx) as Hb.
    rewrite Forall_forall in Hb. apply Hb. eapply nth_error_In; eauto. }
  unfold Doubles.lloyd_pass in Hpass. rewrite Hidx in Hpass. cbn [bind] in Hpass.
  destruct (doubles_relocate_fold np (map to_float values) idx seeds
              (List.length seeds) 0 seeds false)
    as (new' & Hfold & _); auto.
  rewrite Hfold in Hpass. injection Hpass as _ Hmoved. cbn [orb] in Hmoved.
  assert (Hm : has_moved np (map to_float values) idx seeds k = false).
  { destruct (has_moved np (map to_float values) idx seeds k) eqn:E; [|reflexivity].
    assert (Hex : existsb (has_moved np (map to_float values) idx seeds)
                    (seq 0 (List.length seeds)) = true).
    { apply existsb_exists. exists k. split; [apply in_seq; lia|assumption]. }
    congruence. }
  destruct (nth_error seeds k) as [sk|] eqn:Esk;
    [|apply nth_error_None in Esk; lia].
  exists sk. split; [reflexivity|].
  unfold has_moved in Hm. rewrite doubles_members_map in Hm.
  destruct (Doubles.members values idx k) as [|x m] eqn:Em; [congruence|].
  cbn [map] in Hm. apply negb_false_iff in Hm.
  rewrite (nth_error_nth _ _ _ Esk) in Hm.
  unfold Doubles.mean in Hm. cbn [map List.length] in *.
  rewrite length_map in Hm. exact Hm.
Qed.

End DoublesProperties.

(** ** The structure of the result does not depend on the arithmetic *)

Section DoublesStructure.

Import PrimFloat DoublesNotions.

Variable np : Doubles.numpy.
Variable V : Type.
Variable to_float : V -> float.
Variable random : nat -> float.

Lemma doubles_setitem_append_perm (cl cl1 : list (list V)) i c v :
  nth_error cl i = Some c ->
  setitem cl i (c ++ [v]) = Ok cl1 ->
  Permutation (concat cl1) (v :: concat cl).
Proof.
  revert i cl1. induction cl as [|x cl IH]; intros [|i] cl1; simpl; try discriminate.
  - intros [= ->] [= <-]. simpl. rewrite <- app_assoc. simpl.
    symmetry. apply Permutation_middle.
  - intros Hn. destruct (setitem cl i (c ++ [v])) as [ys|] eqn:E; simpl; [|discriminate].
    intros [= <-]. simpl.
    etransitivity; [apply Permutation_app_head, (IH i ys Hn E)|].
    symmetry. apply Permutation_middle.
Qed.

Lemma doubles_append_at_total (n : nat) :
  forall (values : list V) idx cl,
    List.length cl = n ->
    Forall (fun i => i < n) idx ->
    exists cl',
      foldM (Doubles.append_at V) (combine values idx) cl = Ok cl'
      /\ Permutation (concat cl') (concat cl ++ map fst (combine values idx)).
Proof.
  induction values as [|v values IH]; intros idx cl Hlen Hidx.
  - exists cl. simpl. rewrite app_nil_r. auto.
  - destruct idx as [|i idx].
    + exists cl. simpl. rewrite app_nil_r. auto.
    + inversion Hidx as [|i' idx' Hi Hrest]; subst i' idx'.
      destruct (nth_error cl i) as [c|] eqn:Ec;
        [|apply nth_error_None in Ec; lia].
      destruct (setitem_lt cl i (c ++ [v])) as [cl1 Hset]; [lia|].
      destruct (IH idx cl1) as (cl' & Hfold & Hperm); auto.
      { rewrite (setitem_length _ _ _ _ Hset). assumption. }
      exists cl'. cbn [combine foldM Doubles.append_at].
      unfold getitem. rewrite Ec. cbn [bind]. rewrite Hset. cbn [bind].
      rewrite Hfold. split; [reflexivity|].
      etransitivity; [exact Hperm|]. simpl.
      etransitivity;
        [apply Permutation_app_tail, (doubles_setitem_append_perm _ _ _ _ _ Ec Hset)|].
      simpl. apply Permutation_middle.
Qed.

Lemma doubles_relax_and_split_total (values : list V) arr seeds0 lloyd_iters :
  seeds0 <> [] -> List.length arr = List.length values ->
  exists clusters seeds,
    Doubles.relax_and_split np V values arr seeds0 (List.length seeds0) lloyd_iters
    = Ok (clusters, seeds)
    /\ List.length seeds = List.length seeds0
    /\ Permutation (concat clusters) values.
Proof.
  intros Hne Harr.
  destruct (doubles_lloyd_iterations_total np arr (Z.to_nat lloyd_iters) seeds0 Hne)
    as (seeds & Hloop & Hlen).
  assert (Hne' : seeds <> []).
  { intros ->. destruct seeds0; [congruence|discriminate]. }
  destruct (doubles_nearest_total arr seeds Hne') as [idx Hidx].
  destruct (doubles_append_at_total (List.length seeds0) values idx
              (repeat [] (List.length seeds0)))
    as (clusters & Hbuild & Hperm).
  { apply repeat_length. }
  { rewrite <- Hlen. eapply doubles_nearest_bound; eauto. }
  exists clusters, seeds. unfold Doubles.relax_and_split.
  rewrite Hloop. cbn [bind]. rewrite Hidx. cbn [bind].
  unfold Doubles.build_clusters. rewrite Hbuild. cbn [bind].
  split; [reflexivity|]. split; [assumption|].
  rewrite concat_repeat_nil, fst_combine in Hperm; [assumption|].
  rewrite (doubles_nearest_length _ _ _ Hidx). assumption.
Qed.

Lemma interior_length {A} (xs : list A) n :
  List.length xs = n + 2 -> List.length (interior xs) = n.
Proof.
  unfold interior. destruct xs as [|x xs]; [simpl; lia|].
  cbn [tl List.length]. intros H.
  destruct xs as [|y xs] using rev_ind; [simpl in H; lia|].
  rewrite removelast_last. rewrite length_app in H. simpl in H. lia.
Qed.

(** X26. Read over doubles, with the input objects kept as they are and
    whatever numpy's [sum], [min], [max], [sort] and [quantile] return, the
    function still returns for every non-empty input and [n_seeds >= 1],
    with [n_seeds] clusters that rearrange the input and [n_seeds] seeds:
    rounding, overflow and NaN change which cluster a value goes to, not
    that it goes to exactly one.  All that is asked of numpy is that
    [np.linspace(0, 1, num)] has [num] points.  This holds for the
    command-line version and for the second application. *)
Theorem doubles_partition_rearranges_input
    (values : list V) (n_seeds lloyd_iters : Z) (init_method : string)
    (g : nat) :
  (1 <= n_seeds)%Z -> values <> [] ->
  List.length (Doubles.linspace np (Z.to_nat n_seeds + 2)) = Z.to_nat n_seeds + 2 ->
  (exists clusters seeds g',
     Doubles.partition_voronoi np V to_float random values n_seeds lloyd_iters
       init_method g = (Ok (clusters, seeds), g')
     /\ List.length clusters = Z.to_nat n_seeds
     /\ List.length seeds = Z.to_nat n_seeds
     /\ Permutation (concat clusters) values)
  /\ (exists clusters seeds g',
        Doubles.partition_voronoi_2 np V to_float random values n_seeds
          lloyd_iters init_method g = (Ok (clusters, seeds), g')
        /\ List.length clusters = Z.to_nat n_seeds
        /\ List.length seeds = Z.to_nat n_seeds
        /\ Permutation (concat clusters) values).
Proof.
  intros Hn Hv Hlin.
  assert (Hrun : forall seeds0, List.length seeds0 = Z.to_nat n_seeds ->
            forall g1 : nat, exists clusters seeds g',
              (Doubles.relax_and_split np V values (map to_float values) seeds0
                 (Z.to_nat n_seeds) lloyd_iters, g1) = (Ok (clusters, seeds), g')
              /\ List.length clusters = Z.to_nat n_seeds
              /\ List.length seeds = Z.to_nat n_seeds
              /\ Permutation (concat clusters) values).
  { intros seeds0 Hlen g1.
    assert (Hne : seeds0 <> []) by (apply (nonempty_length _ _ Hlen); lia).
    destruct (doubles_relax_and_split_total values (map to_float values) seeds0
                lloyd_iters Hne (length_map _ _))
      as (clusters & seeds & Hrun & Hs & Hperm).
    rewrite Hlen in *. exists clusters, seeds, g1. rewrite Hrun.
    split; [reflexivity|].
    apply doubles_relax_and_split_inv in Hrun as (_ & idx & _ & Hc & _).
    auto. }
  assert (Hq : List.length (Doubles.quantile_seeds np (map to_float values)
                              (Z.to_nat n_seeds)) = Z.to_nat n_seeds).
  { unfold Doubles.quantile_seeds. rewrite length_map.
    now apply interior_length. }
  unfold Doubles.partition_voronoi, Doubles.partition_voronoi_2.
  destruct (Z.leb_spec n_seeds 0) as [H|_]; [lia|].
  destruct (Nat.eqb_spec (List.length values) 0) as [H0|_].
  { destruct values; [congruence|discriminate]. }
  destruct (String.eqb init_method "quantile").
  - split; apply Hrun; exact Hq.
  - split.
    + unfold Doubles.random_seeds.
      pose proof (doubles_uniform_seeds_length random
                    (Doubles.min np (map to_float values))
                    (Doubles.max np (map to_float values))
                    (Z.to_nat n_seeds) g) as [Hlen _].
      destruct (Doubles.uniform_seeds random _ _ _ g) as [seeds0 g1].
      apply Hrun. exact Hlen.
    + unfold Doubles.random_seeds_2.
      destruct (_ =? _)%float.
      * apply Hrun. apply repeat_length.
      * pose proof (doubles_uniform_seeds_length random
                      (Doubles.min np (map to_float values))
                      (Doubles.max np (map to_float values))
                      (Z.to_nat n_seeds) g) as [Hlen _].
        destruct (Doubles.uniform_seeds random _ _ _ g) as [seeds0 g1].
        apply Hrun. exact Hlen.
Qed.

End DoublesStructure.

Section DoublesOnSamples.

Import PrimFloat.

(** The example of the command-line version, run on doubles: the value 6 of
    the second cluster and the seed of that cluster. *)
Lemma members_nearest_to_own_seed_witness :
  let values := [0; 1; 2; 3; 4; 5; 6; 7; 8; 9]%float in
  let r := Doubles.partition_voronoi Sample.numpy PrimFloat.float Sample.itself
             Sample.half values 3 10 "quantile" 0 in
  let clusters := fst (value_or ([], []) (fst r)) in
  let seeds := snd (value_or ([], []) (fst r)) in
  r = (Ok (clusters, seeds), snd r)
  /\ nth_error clusters 1 = Some [4; 5; 6]%float
  /\ In 6%float [4; 5; 6]%float
  /\ exists sk, nth_error seeds 1 = Some sk
       /\ (PrimFloat.is_nan (PrimFloat.abs (Sample.itself 6 - sk)) = false ->
           forall j sj, nth_error seeds j = Some sj ->
             (PrimFloat.abs (Sample.itself 6 - sk)
              <=? PrimFloat.abs (Sample.itself 6 - sj))%float = true).
Proof.
  intros values r clusters seeds.
  assert (H : r = (Ok (clusters, seeds), snd r)) by (vm_compute; reflexivity).
  assert (Hk : nth_error clusters 1 = Some [4; 5; 6]%float)
    by (vm_compute; reflexivity).
  assert (Hx : In 6%float [4; 5; 6]%float) by (right; right; left; reflexivity).
  split; [exact H|]. split; [exact Hk|]. split; [exact Hx|].
  destruct (members_nearest_to_own_seed Sample.numpy PrimFloat.float Sample.itself
              Sample.half values 3 10 "quantile" 0 (snd r) clusters seeds
              (or_introl H) 1 [4; 5; 6]%float 6%float Hk Hx)
    as (sk & Hsk & Hleast & _).
  exists sk. split; [exact Hsk|].
  intros Hnan j sj Hj. exact (proj1 (Hleast Hnan j sj Hj)).
Defined.


Lemma converged_seeds_are_centroids_witness :
  let values := [0; 1; 2; 3; 4; 5; 6; 7; 8; 9]%float in
  let r := Doubles.partition_voronoi Sample.numpy PrimFloat.float Sample.itself
             Sample.half values 3 10 "quantile" 0 in
  let clusters := fst (value_or ([], []) (fst r)) in
  let seeds := snd (value_or ([], []) (fst r)) in
  let pass := Doubles.lloyd_pass Sample.numpy (map Sample.itself values) seeds
                (List.length seeds) in
  r = (Ok (clusters, seeds), snd r)
  /\ pass = Ok (fst (value_or ([], false) pass), false)
  /\ nth_error clusters 1 = Some [4; 5; 6]%float
  /\ [4; 5; 6]%float <> []
  /\ exists sk, nth_error seeds 1 = Some sk
       /\ (Doubles.sum Sample.numpy (map Sample.itself [4; 5; 6]%float)
           / Doubles.of_nat (List.length [4; 5; 6]%float) =? sk)%float = true.
Proof.
  intros values r clusters seeds pass.
  assert (H : r = (Ok (clusters, seeds), snd r)) by (vm_compute; reflexivity).
  assert (Hp : pass = Ok (fst (value_or ([], false) pass), false))
    by (vm_compute; reflexivity).
  assert (Hk : nth_error clusters 1 = Some [4; 5; 6]%float)
    by (vm_compute; reflexivity).
  assert (Hc : [4; 5; 6]%float <> []) by discriminate.
  split; [exact H|]. split; [exact Hp|]. split; [exact Hk|]. split; [exact Hc|].
  exact (converged_seeds_are_centroids Sample.numpy PrimFloat.float Sample.itself
           Sample.half values 3 10 "quantile" 0 (snd r) clusters seeds
           (fst (value_or ([], false) pass)) (or_introl H) Hp 1 [4; 5; 6]%float
           Hk Hc).
Defined.

(** Two Python ints that one double stands for, 2^53 and 2^53 + 1: the
    clusters hold the ints, the arithmetic sees the double. *)
Lemma doubles_partition_rearranges_input_witness :
  let values := [9007199254740992; 9007199254740993; 3]%Z in
  (1 <= 2)%Z /\ values <> []
  /\ List.length (Doubles.linspace Sample.numpy (Z.to_nat 2 + 2)) = Z.to_nat 2 + 2
  /\ exists clusters seeds g',
       Doubles.partition_voronoi Sample.numpy Z Sample.int_float Sample.half
         values 2 0 "quantile" 0 = (Ok (clusters, seeds), g')
       /\ clusters = [[3]; [9007199254740992; 9007199254740993]]%Z
       /\ Permutation (concat clusters) values.
Proof.
  intros values.
  assert (Hl : List.length (Doubles.linspace Sample.numpy (Z.to_nat 2 + 2))
               = Z.to_nat 2 + 2) by reflexivity.
  split; [lia|]. split; [discriminate|]. split; [exact Hl|].
  destruct (doubles_partition_rearranges_input Sample.numpy Z Sample.int_float
              Sample.half values 2 0 "quantile" 0)
    as [(clusters & seeds & g' & Hrun & _ & _ & Hperm) _];
    [lia|discriminate|exact Hl|].
  exists clusters, seeds, g'. split; [exact Hrun|]. split; [|exact Hperm].
  vm_compute in Hrun. congruence.
Defined.

(** Converged on a mean that is not the mean: the seed 0.10000000000000002
    of three values 0.1 stays where it is under further passes. *)
Example converged_on_rounded_mean :
  Doubles.lloyd_iterations Sample.numpy 1
    [Sample.tenth; Sample.tenth; Sample.tenth] [Sample.tenth] 1
  = Ok [Sample.above_tenth]
  /\ Doubles.lloyd_pass Sample.numpy
       [Sample.tenth; Sample.tenth; Sample.tenth] [Sample.above_tenth] 1
     = Ok ([Sample.above_tenth], false).
Proof. split; vm_compute; reflexivity. Qed.

Local Set Warnings "-inexact-float".

(** Runs on doubles.  A value too large for its nearer seed to show: 10^17
    joins the cluster of the seed 0 and not that of the seed 1.  Quantile
    seeds that are no doubles: thirds are rounded.  The order of the input
    shows in the seed: the sum of 0.1, 0.2 and 0.3 depends on the order in
    which it is added.  A mean that overflows. *)
Example runs_on_doubles :
  fst (Doubles.partition_voronoi Sample.numpy float Sample.itself Sample.half
         [0; 0; 1; 1e17]%float 2 0 "quantile" 0)
  = Ok ([[0; 0; 1e17]; [1]], [0; 1])%float
  /\ fst (Doubles.partition_voronoi Sample.numpy float Sample.itself Sample.half
            [1; 2; 3]%float 5 0 "quantile" 0)
     = Ok ([[1]; []; [2]; []; [3]],
           [1.3333333333333333; 1.6666666666666665; 2; 2.333333333333333;
            2.6666666666666665])%float
  /\ fst (Doubles.partition_voronoi Sample.numpy float Sample.itself Sample.half
            [0.1; 0.2; 0.3]%float 1 1 "random" 0)
     = Ok ([[0.1; 0.2; 0.3]], [0.20000000000000004])%float
  /\ fst (Doubles.partition_voronoi Sample.numpy float Sample.itself Sample.half
            [0.3; 0.2; 0.1]%float 1 1 "random" 0)
     = Ok ([[0.3; 0.2; 0.1]], [0.19999999999999998])%float
  /\ fst (Doubles.partition_voronoi Sample.numpy float Sample.itself Sample.half
            [1.797e308; 1.797e308]%float 1 1 "random" 0)
     = Ok ([[1.797e308; 1.797e308]], [infinity])%float.
Proof. repeat split; vm_compute; reflexivity. Qed.

End DoublesOnSamples.
